(** * Health-Sathi: the IndexedDB service layer and the zustand store

    A shallow embedding of [services/dbService] (the local data store) and
    of [store.ts] (the session state with its asynchronous actions), with
    the properties of the specification proved over it.

    Conventions of the embedding:
    - a JavaScript object is a finite map from property names to values
      ([gmap string value]); object spread [{...a, ...b}] is the
      left-biased union [b ∪ a];
    - an object store is the list of its records in ascending primary-key
      order, the order in which IndexedDB keeps and returns them;
    - a service is a function of the database; what the engine does
      (open failing, a request failing) is the [engine] argument;
    - an asynchronous action of the zustand store is a [task]: a tree of
      state updates and awaits, run either up to its first suspension
      ([run_sync]) or to the end against a database ([run]). *)

From stdpp Require Import gmap strings list fin_maps sorting pretty.
From Stdlib Require Import ZArith Lia.

Local Open Scope string_scope.

(** ** JavaScript values and objects *)

Module Js.

(** The values the two files store in records: [undefined], strings and
    numbers. Numbers are the integers that [Date.now()] produces. *)
Inductive value : Type :=
| VUndef
| VStr (s : string)
| VNum (n : Z).

#[global] Instance value_eq_dec : EqDecision value.
Proof. solve_decision. Defined.

(** An object: its own enumerable properties. A property may be present
    with the value [undefined], as in [{ doctorNotes: undefined }]. *)
Abbreviation obj := (gmap string value).

(** Property read [o.f]: a missing property reads as [undefined]. *)
Definition field (o : obj) (f : string) : value :=
  default VUndef (o !! f).

(** Object spread [{ ...a, ...b }]: the properties of [b] win. *)
Definition spread (a b : obj) : obj := b ∪ a.

(** [ToBoolean] of a [string | null]. *)
Definition truthy_id (o : option string) : bool :=
  match o with
  | None => false
  | Some s => negb (bool_decide (s = ""))
  end.

(** [x || d] for an optional string argument. *)
Definition or_default (o : option string) (d : string) : string :=
  match o with
  | Some s => if bool_decide (s = "") then d else s
  | None => d
  end.

(** An optional argument as the value it has inside the function. *)
Definition of_option (o : option string) : value :=
  match o with
  | Some s => VStr s
  | None => VUndef
  end.

(** What a rejected promise carries: [new Error(msg)] of the services, the
    [DOMException] of a failed IndexedDB request, or what
    [transaction.error] holds when the transaction's error handler runs. *)
Inductive error : Type :=
| JsError (msg : string)
| DomException (name : string)
| TransactionError.

#[global] Instance error_eq_dec : EqDecision error.
Proof. solve_decision. Defined.

(** How a promise ends: resolved, rejected, or never settled. *)
Inductive outcome (A : Type) : Type :=
| Resolved (a : A)
| Rejected (e : error)
| Pending.
Arguments Resolved {A} a.
Arguments Rejected {A} e.
Arguments Pending {A}.

End Js.
Export Js.

(** ** IndexedDB object stores *)

Module Idb.

(** A valid key: a number or a string. Numbers sort before strings. *)
Inductive key : Type :=
| KNum (n : Z)
| KStr (s : string).

#[global] Instance key_eq_dec : EqDecision key.
Proof. solve_decision. Defined.

Definition to_key (v : value) : option key :=
  match v with
  | VUndef => None
  | VStr s => Some (KStr s)
  | VNum n => Some (KNum n)
  end.

Definition key_compare (a b : key) : comparison :=
  match a, b with
  | KNum x, KNum y => Z.compare x y
  | KNum _, KStr _ => Lt
  | KStr _, KNum _ => Gt
  | KStr s, KStr t => String.compare s t
  end.

(** The key of a record at a key path (in-line keys). *)
Definition key_at (path : string) (r : obj) : option key :=
  to_key (field r path).

(** An object store: its records in ascending key order. The key path and
    the unique indexes are fixed when the schema is created and are passed
    to the operations. *)
Abbreviation store := (list obj).

(** [store.get(k)] *)
Definition get (path : string) (k : key) (s : store) : option obj :=
  List.find (λ r, bool_decide (key_at path r = Some k)) s.

(** [index.getAll(v)]: the records whose index key is [v]; for one index
    key they come in primary-key order. *)
Definition index_getAll (ipath : string) (v : key) (s : store) : list obj :=
  filter (λ r, key_at ipath r = Some v) s.

(** [index.get(v)]: the first of them, or [undefined]. *)
Definition index_get (ipath : string) (v : key) (s : store) : option obj :=
  head (index_getAll ipath v s).

(** [store.getAll()] *)
Definition getAll (s : store) : list obj := s.

(** Placing a record at its position in key order, replacing the record
    that has the same key. *)
Fixpoint place (path : string) (k : key) (r : obj) (s : store) : store :=
  match s with
  | [] => [r]
  | x :: s' =>
      match key_at path x with
      | None => x :: place path k r s'
      | Some kx =>
          match key_compare k kx with
          | Lt => r :: x :: s'
          | Eq => r :: s'
          | Gt => x :: place path k r s'
          end
      end
  end.

(** A unique index refuses a record whose index key is already held by a
    record with another primary key. *)
Definition clashes (path upath : string) (k : key) (r : obj) (s : store) : bool :=
  match key_at upath r with
  | None => false
  | Some u =>
      existsb (λ x, bool_decide (key_at upath x = Some u)
                    && negb (bool_decide (key_at path x = Some k))) s
  end.

(** How a write request ends. [Threw] is the exception raised by the call
    itself ([DataError]: no valid key at the key path); [Failed] is the
    error event of the request ([ConstraintError]). *)
Inductive written : Type :=
| Stored (s : store)
| Threw (e : error)
| Failed (e : error).

(** [store.put(r)]: insert or replace by primary key. *)
Definition put (path : string) (uniq : list string) (r : obj) (s : store) : written :=
  match key_at path r with
  | None => Threw (DomException "DataError")
  | Some k =>
      if existsb (λ u, clashes path u k r s) uniq
      then Failed (DomException "ConstraintError")
      else Stored (place path k r s)
  end.

(** [store.add(r)]: insert only; an existing key is a constraint error. *)
Definition add (path : string) (uniq : list string) (r : obj) (s : store) : written :=
  match key_at path r with
  | None => Threw (DomException "DataError")
  | Some k =>
      if bool_decide (is_Some (get path k s)) || existsb (λ u, clashes path u k r s) uniq
      then Failed (DomException "ConstraintError")
      else Stored (place path k r s)
  end.

End Idb.
Export Idb.

(** ** services/dbService *)

Module DbService.

(** Modelled from the spec: the [UserRole] enum of [./types] is not among
    the sources; the specification gives its members as PATIENT, DOCTOR
    and GUEST. A member is stored as its name. *)
Inductive UserRole : Type := GUEST | PATIENT | DOCTOR.

#[global] Instance UserRole_eq_dec : EqDecision UserRole.
Proof. solve_decision. Defined.

Definition role_value (r : UserRole) : value :=
  match r with
  | GUEST => VStr "GUEST"
  | PATIENT => VStr "PATIENT"
  | DOCTOR => VStr "DOCTOR"
  end.

(** The database [HealthSathiDB], version 1, as [onupgradeneeded] creates
    it: [users] keyed by [_id] with a unique index on [email] and an index
    on [role]; [reports] keyed by [id] with indexes on [userId],
    [targetDoctorId] and [timestamp], none of them unique. *)
Record DB : Type := { users : store; reports : store }.

Definition STORE_USERS_keyPath : string := "_id".
Definition STORE_USERS_unique : list string := ["email"].
Definition STORE_REPORTS_keyPath : string := "id".
Definition STORE_REPORTS_unique : list string := [].

Definition empty_db : DB := {| users := []; reports := [] |}.

(** What the engine does during one call of a service. *)
Inductive engine : Type :=
| Healthy
| OpenFails                    (* [indexedDB.open] fires [onerror] *)
| ReadFails (name : string)    (* the get / getAll request fires [onerror] *)
| WriteFails (name : string).  (* the put / add request fires [onerror] *)

(** [new Promise((resolve, reject) => openDB().then(db => { req = ...;
    req.onsuccess = () => resolve(f(req.result));
    req.onerror = () => reject(req.error) }))].
    The rejection of [openDB()] has no handler, so the promise of the
    service then never settles. *)
Definition read_request {A : Type} (eng : engine) (result : A) : outcome A :=
  match eng with
  | OpenFails => Pending
  | ReadFails n => Rejected (DomException n)
  | Healthy | WriteFails _ => Resolved result
  end.

(** A write request under the engine: a request that would have stored
    fires [onerror] when the engine fails the write. *)
Definition write_request (eng : engine) (w : written) : written :=
  match w, eng with
  | Stored _, WriteFails n => Failed (DomException n)
  | _, _ => w
  end.

(** [performTransaction(storeName, 'readwrite', store => store.op(r))]:
    everything up to the request is inside [try], and the error event of
    the request reaches [transaction.onerror]. *)
Definition performTransaction (eng : engine) (w : written) (s : store)
  : outcome unit * store :=
  match eng with
  | OpenFails => (Rejected (JsError "Failed to open database"), s)
  | _ =>
      match write_request eng w with
      | Stored s' => (Resolved tt, s')
      | Threw e => (Rejected e, s)
      | Failed _ => (Rejected TransactionError, s)
      end
  end.

(** The read-modify-write of [updateUserInDb] and [updateReportInDb]:
    [await openDB()], then [get], and [put] of the merge inside the
    success handler of the get. An exception of [put] escapes the handler:
    the promise is left unsettled and the transaction aborts. *)
Definition merge_update (eng : engine) (path : string) (uniq : list string)
    (missing : string) (k : string) (updates : obj) (s : store)
  : outcome unit * store :=
  match eng with
  | OpenFails => (Rejected (JsError "Failed to open database"), s)
  | ReadFails n => (Rejected (DomException n), s)
  | _ =>
      match get path (KStr k) s with
      | None => (Rejected (JsError missing), s)
      | Some data =>
          let updatedData := spread data updates in
          match write_request eng (put path uniq updatedData s) with
          | Stored s' => (Resolved tt, s')
          | Threw _ => (Pending, s)
          | Failed e => (Rejected e, s)
          end
      end
  end.

(** *** Auth services *)

Record Registered : Type := { registered_user : obj; registered_role : value }.

Definition newUser (now : N) (iso rnd : string) (email pass name : string)
    (role : UserRole) (specialization : option string) : obj :=
  list_to_map
    [ ("_id", VStr ("user_" +:+ pretty now +:+ rnd));
      ("email", VStr email);
      ("password", VStr pass);
      ("name", VStr name);
      ("role", role_value role);
      ("createdAt", VStr iso);
      ("bloodGroup", VStr "Unknown");
      ("age", VStr "");
      ("height", VStr "");
      ("weight", VStr "");
      ("phone", VStr "");
      ("dob", VStr "");
      ("specialization", VStr (or_default specialization "")) ].

(** [registerUser]. [now] is the reading of [Date.now()], [iso] that of
    [new Date().toISOString()] and [rnd] the nine base-36 digits taken
    from [Math.random()]. *)
Definition registerUser (eng : engine) (now : N) (iso rnd : string)
    (email pass name : string) (role : UserRole)
    (specialization : option string) (db : DB) : outcome Registered * DB :=
  match read_request eng (index_get "email" (KStr email) (users db)) with
  | Pending => (Pending, db)
  | Rejected e => (Rejected e, db)
  | Resolved (Some _) =>
      (Rejected (JsError "User with this email already exists."), db)
  | Resolved None =>
      let u := newUser now iso rnd email pass name role specialization in
      match performTransaction eng
              (add STORE_USERS_keyPath STORE_USERS_unique u (users db))
              (users db) with
      | (Resolved _, us) =>
          (Resolved {| registered_user := <["uid" := field u "_id"]> u;
                       registered_role := field u "role" |},
           {| users := us; reports := reports db |})
      | (Rejected e, _) => (Rejected e, db)
      | (Pending, _) => (Pending, db)
      end
  end.

Record LoggedIn : Type :=
  { logged_user : obj; logged_role : value; logged_name : value }.

Definition loginUser (eng : engine) (email pass : string) (db : DB)
  : outcome LoggedIn :=
  match read_request eng (index_get "email" (KStr email) (users db)) with
  | Pending => Pending
  | Rejected e => Rejected e
  | Resolved None => Rejected (JsError "Invalid email or password.")
  | Resolved (Some user) =>
      if bool_decide (field user "password" ≠ VStr pass)
      then Rejected (JsError "Invalid email or password.")
      else Resolved
        {| logged_user :=
             list_to_map
               [ ("uid", field user "_id");
                 ("email", field user "email");
                 ("name", field user "name");
                 ("role", field user "role");
                 ("bloodGroup", field user "bloodGroup");
                 ("age", field user "age");
                 ("dob", field user "dob");
                 ("height", field user "height");
                 ("weight", field user "weight");
                 ("phone", field user "phone");
                 ("specialization", field user "specialization") ];
           logged_role := field user "role";
           logged_name := field user "name" |}
  end.

Definition updateUserInDb (eng : engine) (uid : string) (updates : obj)
    (db : DB) : outcome unit * DB :=
  let '(o, us) := merge_update eng STORE_USERS_keyPath STORE_USERS_unique
                    "User not found" uid updates (users db) in
  (o, {| users := us; reports := reports db |}).

Definition doctor_profile (doc : obj) : obj :=
  list_to_map
    [ ("uid", field doc "_id");
      ("name", field doc "name");
      ("email", field doc "email");
      ("role", field doc "role");
      ("specialization", field doc "specialization") ].

Definition fetchAvailableDoctors (eng : engine) (db : DB) : outcome (list obj) :=
  read_request eng
    (doctor_profile <$>
       match to_key (role_value DOCTOR) with
       | Some k => index_getAll "role" k (users db)
       | None => []
       end).

(** *** Database services *)

(** [saveReportToDb]; [iso] is the reading of [new Date().toISOString()]. *)
Definition saveReportToDb (eng : engine) (iso : string) (report : obj)
    (db : DB) : outcome unit * DB :=
  let reportDoc := <["updatedAt" := VStr iso]> report in
  let '(o, rs) := performTransaction eng
                    (put STORE_REPORTS_keyPath STORE_REPORTS_unique reportDoc
                       (reports db))
                    (reports db) in
  (o, {| users := users db; reports := rs |}).

(** [ToNumber] where the services read a number: [None] is NaN. The
    [timestamp] of a [HealthReport] is a number; [undefined] gives NaN. A
    string is read as NaN as well: numerals among strings are not
    recognised, and the ordering properties below are stated for reports
    whose timestamp is a number. *)
Definition to_number (v : value) : option Z :=
  match v with
  | VNum n => Some n
  | VUndef | VStr _ => None
  end.

(** The comparator [(a, b) => b.timestamp - a.timestamp], with NaN read
    as [+0] the way [Array.prototype.sort] reads it. *)
Definition by_timestamp_desc (a b : obj) : Z :=
  match to_number (field b "timestamp"), to_number (field a "timestamp") with
  | Some tb, Some ta => tb - ta
  | _, _ => 0
  end.

(** [Array.prototype.sort(cmp)] is a stable sort: an element goes before
    the first element it must precede and after every element it ties
    with that came before it. *)
Fixpoint sort_insert (cmp : obj → obj → Z) (x : obj) (l : list obj) : list obj :=
  match l with
  | [] => [x]
  | y :: l' =>
      if (cmp x y <=? 0)%Z then x :: y :: l' else y :: sort_insert cmp x l'
  end.

Fixpoint array_sort (cmp : obj → obj → Z) (l : list obj) : list obj :=
  match l with
  | [] => []
  | x :: l' => sort_insert cmp x (array_sort cmp l')
  end.

Definition fetchPatientReports (eng : engine) (userId : string) (db : DB)
  : outcome (list obj) :=
  read_request eng
    (array_sort by_timestamp_desc
       (index_getAll "userId" (KStr userId) (reports db))).

Definition fetchReportsForSpecificDoctor (eng : engine) (doctorId : string)
    (db : DB) : outcome (list obj) :=
  read_request eng
    (array_sort by_timestamp_desc
       (index_getAll "targetDoctorId" (KStr doctorId) (reports db))).

Definition fetchAllReportsForDoctor (eng : engine) (db : DB)
  : outcome (list obj) :=
  read_request eng (array_sort by_timestamp_desc (getAll (reports db))).

Definition updateReportInDb (eng : engine) (reportId : string) (updates : obj)
    (db : DB) : outcome unit * DB :=
  let '(o, rs) := merge_update eng STORE_REPORTS_keyPath STORE_REPORTS_unique
                    "Report not found" reportId updates (reports db) in
  (o, {| users := users db; reports := rs |}).

End DbService.
Export DbService.

(** ** store.ts: the session state and its actions *)

Module Store.

Inductive SidebarSection : Type := profile | library.

Record AppState : Type := {
  currentUserRole : UserRole;
  currentPatientName : string;
  currentUserId : option string;
  currentUserProfile : option obj;
  reports : list obj;
  availableDoctors : list obj;
  isLoading : bool;
  isSidebarOpen : bool;
  sidebarActiveSection : SidebarSection
}.

Definition initialState : AppState :=
  {| currentUserRole := GUEST;
     currentPatientName := "";
     currentUserId := None;
     currentUserProfile := None;
     reports := [];
     availableDoctors := [];
     isLoading := false;
     isSidebarOpen := false;
     sidebarActiveSection := profile |}.

(** The partial states that the actions pass to zustand's [set]. *)
Definition set_reports (l : list obj) (s : AppState) : AppState :=
  {| currentUserRole := currentUserRole s;
     currentPatientName := currentPatientName s;
     currentUserId := currentUserId s;
     currentUserProfile := currentUserProfile s;
     reports := l;
     availableDoctors := availableDoctors s;
     isLoading := isLoading s;
     isSidebarOpen := isSidebarOpen s;
     sidebarActiveSection := sidebarActiveSection s |}.

Definition set_isLoading (b : bool) (s : AppState) : AppState :=
  {| currentUserRole := currentUserRole s;
     currentPatientName := currentPatientName s;
     currentUserId := currentUserId s;
     currentUserProfile := currentUserProfile s;
     reports := reports s;
     availableDoctors := availableDoctors s;
     isLoading := b;
     isSidebarOpen := isSidebarOpen s;
     sidebarActiveSection := sidebarActiveSection s |}.

Definition set_availableDoctors (l : list obj) (s : AppState) : AppState :=
  {| currentUserRole := currentUserRole s;
     currentPatientName := currentPatientName s;
     currentUserId := currentUserId s;
     currentUserProfile := currentUserProfile s;
     reports := reports s;
     availableDoctors := l;
     isLoading := isLoading s;
     isSidebarOpen := isSidebarOpen s;
     sidebarActiveSection := sidebarActiveSection s |}.

(** The services an action awaits, by the type of what they resolve to. *)
Inductive call : Type → Type :=
| FetchPatientReports (userId : string) : call (list obj)
| FetchReportsForSpecificDoctor (doctorId : string) : call (list obj)
| FetchAvailableDoctors : call (list obj)
| UpdateReportInDb (reportId : string) (updates : obj) : call unit
| UpdateUserInDb (uid : string) (updates : obj) : call unit.

Definition perform {R : Type} (c : call R) (eng : engine) (db : DB)
  : outcome R * DB :=
  match c in call R return outcome R * DB with
  | FetchPatientReports userId => (fetchPatientReports eng userId db, db)
  | FetchReportsForSpecificDoctor doctorId =>
      (fetchReportsForSpecificDoctor eng doctorId db, db)
  | FetchAvailableDoctors => (fetchAvailableDoctors eng db, db)
  | UpdateReportInDb reportId updates => updateReportInDb eng reportId updates db
  | UpdateUserInDb uid updates => updateUserInDb eng uid updates db
  end.

(** An asynchronous action: reads of the state ([get()]), updates of it
    ([set(...)]), console output, and awaits. An await has the
    continuation of the resolved promise and that of the rejected one
    (the exception [await] raises). *)
Inductive task (A : Type) : Type :=
| Ret (a : A)
| Throw (e : error)
| GetState (k : AppState → task A)
| SetState (f : AppState → AppState) (k : task A)
| ConsoleError (msg : string) (e : error) (k : task A)
| Await {R : Type} (c : call R) (k : R → task A) (h : error → task A).
Arguments Ret {A} a.
Arguments Throw {A} e.
Arguments GetState {A} k.
Arguments SetState {A} f k.
Arguments ConsoleError {A} msg e k.
Arguments Await {A R} c k h.

Fixpoint bind {A B : Type} (t : task A) (f : A → task B) : task B :=
  match t with
  | Ret a => f a
  | Throw e => Throw e
  | GetState k => GetState (λ s, bind (k s) f)
  | SetState g k => SetState g (bind k f)
  | ConsoleError m e k => ConsoleError m e (bind k f)
  | Await c k h => Await c (λ r, bind (k r) f) (λ e, bind (h e) f)
  end.

(** [try { t } catch (e) { handler e }] *)
Fixpoint try_catch {A : Type} (t : task A) (handler : error → task A) : task A :=
  match t with
  | Ret a => Ret a
  | Throw e => handler e
  | GetState k => GetState (λ s, try_catch (k s) handler)
  | SetState g k => SetState g (try_catch k handler)
  | ConsoleError m e k => ConsoleError m e (try_catch k handler)
  | Await c k h =>
      Await c (λ r, try_catch (k r) handler) (λ e, try_catch (h e) handler)
  end.

(** [try { t } finally { fin }]: [fin] runs however [t] completes, and
    the completion of [t] is then the completion of the whole. *)
Definition try_finally {A : Type} (t : task A) (fin : task unit) : task A :=
  bind (try_catch (bind t (λ a, Ret (inl a))) (λ e, Ret (inr e)))
       (λ r, bind fin (λ _, match r with
                            | inl a => Ret a
                            | inr e => Throw e
                            end)).

Definition await {R : Type} (c : call R) : task R := Await c Ret Throw.
Definition get : task AppState := GetState Ret.
Definition set (f : AppState → AppState) : task unit := SetState f (Ret tt).
Definition console_error (msg : string) (e : error) : task unit :=
  ConsoleError msg e (Ret tt).

#[global] Instance task_ret : MRet task := @Ret.
#[global] Instance task_bind : MBind task := λ A B f t, bind t f.

(** How a run of an action stands: it returned, it threw (the promise of
    the action is rejected), or it is suspended on a promise that never
    settles. *)
Inductive ended (A : Type) : Type :=
| Returned (a : A)
| Thrown (e : error)
| Hangs.
Arguments Returned {A} a.
Arguments Thrown {A} e.
Arguments Hangs {A}.

(** What a run does, in order: a [set] (with the state it leaves, which
    zustand hands to the listeners), a [console.error], a call of a
    service that the action then awaits. *)
Inductive event : Type :=
| StateSet (s : AppState)
| Logged (msg : string) (e : error)
| Called {R : Type} (c : call R).

Record world : Type := {
  app : AppState;
  db : DB;
  trace : list event
}.

(** The synchronous part of an action: everything up to the first await
    (or to completion). The result is what is left to run. *)
Fixpoint run_sync {A : Type} (t : task A) (s : AppState) (tr : list event)
  : task A * AppState * list event :=
  match t with
  | GetState k => run_sync (k s) s tr
  | SetState f k => run_sync k (f s) (tr ++ [StateSet (f s)])
  | ConsoleError m e k => run_sync k s (tr ++ [Logged m e])
  | Ret _ | Throw _ | Await _ _ _ => (t, s, tr)
  end.

(** The whole run of an action; [eng] is what the engine does during the
    service calls the action awaits. *)
Fixpoint run {A : Type} (t : task A) (eng : engine) (w : world)
  : ended A * world :=
  match t with
  | Ret a => (Returned a, w)
  | Throw e => (Thrown e, w)
  | GetState k => run (k (app w)) eng w
  | SetState f k =>
      run k eng {| app := f (app w); db := db w;
                   trace := trace w ++ [StateSet (f (app w))] |}
  | ConsoleError m e k =>
      run k eng {| app := app w; db := db w; trace := trace w ++ [Logged m e] |}
  | Await c k h =>
      let '(o, d) := perform c eng (db w) in
      let w' := {| app := app w; db := d; trace := trace w ++ [Called c] |} in
      match o with
      | Resolved r => run (k r) eng w'
      | Rejected e => run (h e) eng w'
      | Pending => (Hangs, w')
      end
  end.

(** *** Actions *)

Definition loadReports : task unit :=
  s ← get;
  let currentUserRole := currentUserRole s in
  let currentUserId := currentUserId s in
  if negb (truthy_id currentUserId) && bool_decide (currentUserRole ≠ DOCTOR)
  then Ret tt
  else
    set (set_isLoading true);;
    try_finally
      (try_catch
         (fetchedReports ←
            (if bool_decide (currentUserRole = PATIENT) && truthy_id currentUserId
             then await (FetchPatientReports (default "" currentUserId))
             else if bool_decide (currentUserRole = DOCTOR) && truthy_id currentUserId
             then await (FetchReportsForSpecificDoctor (default "" currentUserId))
             else Ret []);
          set (set_reports fetchedReports))
         (λ e, console_error "Failed to load reports" e))
      (set (set_isLoading false)).

Definition loadDoctors : task unit :=
  try_catch
    (doctors ← await FetchAvailableDoctors;
     set (set_availableDoctors doctors))
    (λ e, console_error "Failed to load doctors" e).

(** [r.id === id ? { ...r, status, doctorNotes: notes } : r] *)
Definition rewrite_status (id : string) (status : value) (notes : option string)
    (r : obj) : obj :=
  if bool_decide (field r "id" = VStr id)
  then spread r {[ "status" := status; "doctorNotes" := of_option notes ]}
  else r.

(** [updateReportStatus]; [status] is a member of the [ReportStatus] enum
    of [./types]. *)
Definition updateReportStatus (id : string) (status : value)
    (notes : option string) : task unit :=
  set (λ state, set_reports (rewrite_status id status notes <$> reports state) state);;
  try_catch
    (await (UpdateReportInDb id
              {[ "status" := status; "doctorNotes" := of_option notes ]}))
    (λ e, console_error "Failed to update report in DB" e).

End Store.
Export Store.

(** *** The synchronous actions of store.ts *)

Module Setters.

(** [set({ currentUserRole: role, currentPatientName: name,
    currentUserId: uid, currentUserProfile: profile || null })] *)
Definition set_auth (role : UserRole) (name : string) (uid : option string)
    (profile : option obj) (s : AppState) : AppState :=
  {| currentUserRole := role;
     currentPatientName := name;
     currentUserId := uid;
     currentUserProfile := profile;
     reports := reports s;
     availableDoctors := availableDoctors s;
     isLoading := isLoading s;
     isSidebarOpen := isSidebarOpen s;
     sidebarActiveSection := sidebarActiveSection s |}.

(** [set({ isSidebarOpen: open, sidebarActiveSection: section })] *)
Definition set_sidebar (open : bool) (section : SidebarSection) (s : AppState)
  : AppState :=
  {| currentUserRole := currentUserRole s;
     currentPatientName := currentPatientName s;
     currentUserId := currentUserId s;
     currentUserProfile := currentUserProfile s;
     reports := reports s;
     availableDoctors := availableDoctors s;
     isLoading := isLoading s;
     isSidebarOpen := open;
     sidebarActiveSection := section |}.

Definition setAuth (role : UserRole) (name : string) (uid : option string)
    (profile : option obj) : task unit :=
  set (set_auth role name uid profile).

Definition setReports (l : list obj) : task unit := set (set_reports l).

Definition addReportLocal (report : obj) : task unit :=
  set (λ state, set_reports (report :: reports state) state).

(** [setSidebarOpen(open, section = 'profile')] *)
Definition setSidebarOpen (open : bool) (section : option SidebarSection)
  : task unit :=
  set (set_sidebar open (default profile section)).

End Setters.
Export Setters.

(** ** The vocabulary of the properties *)

Module Props.

(** The record that a merge-update leaves under key [k]: it has every
    property of the update with the update's value, and every other
    property as [data] had it; no other key of the store reads
    differently. *)
Definition merged (path : string) (k : string) (data updates : obj)
    (s s' : store) : Prop :=
  ∃ r, Idb.get path (KStr k) s' = Some r
     ∧ (∀ f v, updates !! f = Some v → r !! f = Some v)
     ∧ (∀ f, updates !! f = None → r !! f = data !! f)
     ∧ (∀ k', k' ≠ KStr k → Idb.get path k' s' = Idb.get path k' s).

(** The update does not give the primary key another value. *)
Definition keeps_key (path : string) (k : string) (updates : obj) : Prop :=
  ∀ v, updates !! path = Some v → v = VStr k.

(** The invariant of a unique index: two records with the same valid
    index key are the same record of the store. *)
Definition unique_index (path upath : string) (s : store) : Prop :=
  ∀ x y, x ∈ s → y ∈ s → is_Some (key_at upath x) →
         key_at upath x = key_at upath y → key_at path x = key_at path y.

(** The email that the update sets, if it sets one, is not the email of
    another user. *)
Definition email_available (uid : string) (updates : obj) (us : store) : Prop :=
  ∀ v x, updates !! "email" = Some v → x ∈ us → is_Some (to_key v) →
         key_at "email" x = to_key v →
         key_at STORE_USERS_keyPath x = Some (KStr uid).

Definition report_update_merges (db : DB) (id : string) (updates : obj) : Prop :=
  ∀ data,
    Idb.get STORE_REPORTS_keyPath (KStr id) (DbService.reports db) = Some data →
    ∃ db', updateReportInDb Healthy id updates db = (Resolved tt, db')
         ∧ users db' = users db
         ∧ merged STORE_REPORTS_keyPath id data updates
             (DbService.reports db) (DbService.reports db').

Definition user_update_merges (db : DB) (uid : string) (updates : obj) : Prop :=
  ∀ data,
    Idb.get STORE_USERS_keyPath (KStr uid) (users db) = Some data →
    ∃ db', updateUserInDb Healthy uid updates db = (Resolved tt, db')
         ∧ DbService.reports db' = DbService.reports db
         ∧ merged STORE_USERS_keyPath uid data updates (users db) (users db').

(** The invariant of an object store: every record has a valid key at
    the key path, and the keys ascend strictly along the store. *)
Definition key_lt_at (path : string) (x y : obj) : Prop :=
  ∃ kx ky, key_at path x = Some kx ∧ key_at path y = Some ky
         ∧ key_compare kx ky = Lt.

Definition ascending (path : string) (s : store) : Prop :=
  Forall (λ r, is_Some (key_at path r)) s ∧ StronglySorted (key_lt_at path) s.

(** The invariants of the two collections as [openDB] declares them. *)
Definition users_ok (us : store) : Prop :=
  ascending STORE_USERS_keyPath us ∧ unique_index STORE_USERS_keyPath "email" us.

Definition reports_ok (rs : store) : Prop := ascending STORE_REPORTS_keyPath rs.

Definition db_ok (db : DB) : Prop :=
  users_ok (users db) ∧ reports_ok (DbService.reports db).

(** The timestamp of a report when it is a number. *)
Definition timestamp (r : obj) : option Z := to_number (field r "timestamp").

Definition has_timestamp (r : obj) : Prop := is_Some (timestamp r).

(** [a] may stand before [b] in a newest-first listing. *)
Definition not_older (a b : obj) : Prop :=
  ∃ ta tb, timestamp a = Some ta ∧ timestamp b = Some tb ∧ (tb ≤ ta)%Z.

(** [l] is the selection [P] of the store [s], newest first, ties in the
    order of the store: it has exactly the selected records, its
    timestamps descend, and the records of any one timestamp follow each
    other as they do in the store. *)
Definition newest_first_selection (P : obj → Prop) `{∀ x, Decision (P x)}
    (s : store) (l : list obj) : Prop :=
  l ≡ₚ filter P s
  ∧ (∀ r, r ∈ l ↔ r ∈ s ∧ P r)
  ∧ StronglySorted not_older l
  ∧ ∀ t, filter (λ r, timestamp r = Some t) l
         = filter (λ r, timestamp r = Some t) (filter P s).

(** [r'] is [r] after [updateReportStatus(id, status, notes)]: a report
    with that id has the new status and notes and every other property as
    before; a report with another id is the same object. *)
Definition rewritten (id : string) (status : value) (notes : option string)
    (r r' : obj) : Prop :=
  (field r "id" = VStr id →
     r' !! "status" = Some status
     ∧ r' !! "doctorNotes" = Some (of_option notes)
     ∧ ∀ f, f ≠ "status" → f ≠ "doctorNotes" → r' !! f = r !! f)
  ∧ (field r "id" ≠ VStr id → r' = r).

(** [r'] has the owner and the routing of [r]. *)
Definition same_routing (r r' : obj) : Prop :=
  r' !! "userId" = r !! "userId"
  ∧ r' !! "targetDoctorId" = r !! "targetDoctorId".

(** The update that [updateReportStatus] sends to the store. *)
Definition status_update (status : value) (notes : option string) : obj :=
  {[ "status" := status; "doctorNotes" := of_option notes ]}.

(** Where [loadReports] stands after its fetch [c] ended as [o], when it
    started from the state [st] with the database [d] and the trace [tr]. *)
Definition after_fetch {R : Type} (st : AppState) (d : DB) (tr : list event)
    (c : call R) (o : outcome (list obj)) : ended unit * world :=
  let loading := set_isLoading true st in
  let tr' := (tr ++ [StateSet loading; Called c])%list in
  match o with
  | Resolved l =>
      let loaded := set_reports l loading in
      (Returned tt,
       {| app := set_isLoading false loaded; db := d;
          trace := tr' ++ [StateSet loaded; StateSet (set_isLoading false loaded)] |})
  | Rejected e =>
      (Returned tt,
       {| app := set_isLoading false loading; db := d;
          trace := tr' ++ [Logged "Failed to load reports" e;
                           StateSet (set_isLoading false loading)] |})
  | Pending => (Hangs, {| app := loading; db := d; trace := tr' |})
  end.

(** Where [updateReportStatus] stands after [updateReportInDb] ended as
    [o] and left the database [d']. *)
Definition after_write (id : string) (status : value) (notes : option string)
    (st : AppState) (tr : list event) (o : outcome unit) (d' : DB)
  : ended unit * world :=
  let st' := set_reports (rewrite_status id status notes <$> reports st) st in
  let tr' := (tr ++ [StateSet st';
                     Called (UpdateReportInDb id (status_update status notes))])%list in
  match o with
  | Resolved _ => (Returned tt, {| app := st'; db := d'; trace := tr' |})
  | Rejected e =>
      (Returned tt,
       {| app := st'; db := d';
          trace := tr' ++ [Logged "Failed to update report in DB" e] |})
  | Pending => (Hangs, {| app := st'; db := d'; trace := tr' |})
  end.

End Props.
Export Props.

(** ** A sample database *)

Module Sample.

Definition alice : obj :=
  list_to_map
    [ ("_id", VStr "u1"); ("email", VStr "a@x.com"); ("password", VStr "pw1");
      ("name", VStr "Alice"); ("role", VStr "PATIENT");
      ("specialization", VStr "") ].

Definition bob : obj :=
  list_to_map
    [ ("_id", VStr "u2"); ("email", VStr "d@x.com"); ("password", VStr "pw2");
      ("name", VStr "Dr Bob"); ("role", VStr "DOCTOR");
      ("specialization", VStr "Cardiology") ].

Definition report1 : obj :=
  list_to_map
    [ ("id", VStr "r1"); ("userId", VStr "u1"); ("targetDoctorId", VStr "u2");
      ("timestamp", VNum 100); ("status", VStr "pending");
      ("updatedAt", VStr "2024-01-01T00:00:00.000Z") ].

Definition report2 : obj :=
  list_to_map
    [ ("id", VStr "r2"); ("userId", VStr "u1"); ("targetDoctorId", VStr "u2");
      ("timestamp", VNum 200); ("status", VStr "pending");
      ("updatedAt", VStr "2024-01-02T00:00:00.000Z") ].

Definition report0 : obj :=
  list_to_map
    [ ("id", VStr "r0"); ("userId", VStr "u1"); ("targetDoctorId", VStr "u2");
      ("timestamp", VNum 200); ("status", VStr "reviewed");
      ("updatedAt", VStr "2024-01-04T00:00:00.000Z") ].

Definition report3 : obj :=
  list_to_map
    [ ("id", VStr "r3"); ("userId", VStr "u1"); ("targetDoctorId", VStr "u7");
      ("timestamp", VNum 200); ("status", VStr "pending");
      ("updatedAt", VStr "2024-01-03T00:00:00.000Z") ].

Definition sample_db : DB :=
  {| users := [alice; bob]; DbService.reports := [report0; report1; report2; report3] |}.

(** A session as [setAuth(role, "", uid)] leaves it, holding [held]. *)
Definition session (role : UserRole) (uid : option string) (held : list obj)
  : AppState :=
  {| currentUserRole := role;
     currentPatientName := "";
     currentUserId := uid;
     currentUserProfile := None;
     reports := held;
     availableDoctors := [];
     isLoading := false;
     isSidebarOpen := false;
     sidebarActiveSection := profile |}.

End Sample.

(** ** The vocabulary of the further properties *)

Module MoreProps.

(** The properties of the user object of [loginUser] that are read from
    the property of the same name of the stored user ([uid] comes from
    [_id]). *)
Definition profile_fields : list string :=
  [ "email"; "name"; "role"; "bloodGroup"; "age"; "dob"; "height"; "weight";
    "phone"; "specialization" ].

End MoreProps.
Export MoreProps.

(** * Properties *)

(** ** Objects *)

Section Objects.

Lemma spread_present (a b : obj) (f : string) (v : value) :
  b !! f = Some v → spread a b !! f = Some v.
Proof. intros H. unfold spread. by apply lookup_union_Some_l. Qed.

Lemma spread_absent (a b : obj) (f : string) :
  b !! f = None → spread a b !! f = a !! f.
Proof. intros H. unfold spread. by apply lookup_union_r. Qed.

Lemma field_insert_ne (o : obj) (f g : string) (v : value) :
  f ≠ g → field (<[f := v]> o) g = field o g.
Proof. intros H. unfold field. by rewrite lookup_insert_ne. Qed.

End Objects.

(** ** Object stores *)

Section Stores.

Lemma string_compare_refl (s : string) : String.compare s s = Eq.
Proof.
  pose proof (String.compare_antisym s s) as H.
  destruct (String.compare s s); simpl in H; congruence.
Qed.

Lemma key_compare_refl (k : key) : key_compare k k = Eq.
Proof. destruct k; simpl; [apply Z.compare_refl | apply string_compare_refl]. Qed.

Lemma key_compare_Eq (a b : key) : key_compare a b = Eq → a = b.
Proof.
  destruct a, b; simpl; try discriminate.
  - by intros ->%Z.compare_eq.
  - by intros ->%String.compare_eq_iff.
Qed.

Variable path : string.

Lemma get_Some (k : key) (s : store) (r : obj) :
  Idb.get path k s = Some r → r ∈ s ∧ key_at path r = Some k.
Proof.
  unfold Idb.get. intros H. apply find_some in H as [Hin Hk].
  apply list_elem_of_In in Hin. by apply bool_decide_eq_true in Hk.
Qed.

Lemma get_None (k : key) (s : store) (r : obj) :
  Idb.get path k s = None → r ∈ s → key_at path r ≠ Some k.
Proof.
  unfold Idb.get. intros H Hin%list_elem_of_In Hk.
  pose proof (find_none _ _ H _ Hin) as Hf. simpl in Hf.
  by apply bool_decide_eq_false in Hf.
Qed.

Lemma get_cons (k : key) (x : obj) (s : store) :
  Idb.get path k (x :: s) =
  if bool_decide (key_at path x = Some k) then Some x else Idb.get path k s.
Proof. reflexivity. Qed.

(** Reading back the key that was just written. *)
Lemma get_place_eq (k : key) (r : obj) (s : store) :
  key_at path r = Some k → Idb.get path k (place path k r s) = Some r.
Proof.
  intros Hr. induction s as [|x s IH]; cbn [place].
  - by rewrite get_cons, bool_decide_eq_true_2.
  - destruct (key_at path x) as [kx|] eqn:Hx.
    + destruct (key_compare k kx) eqn:Hc.
      * by rewrite get_cons, bool_decide_eq_true_2.
      * by rewrite get_cons, bool_decide_eq_true_2.
      * rewrite get_cons, bool_decide_eq_false_2; [done|].
        rewrite Hx. intros [= ->]. by rewrite key_compare_refl in Hc.
    + rewrite get_cons, bool_decide_eq_false_2; [done|]. by rewrite Hx.
Qed.

(** Every other key reads as before the write. *)
Lemma get_place_ne (k k' : key) (r : obj) (s : store) :
  key_at path r = Some k → k' ≠ k →
  Idb.get path k' (place path k r s) = Idb.get path k' s.
Proof.
  intros Hr Hne. induction s as [|x s IH]; cbn [place].
  - rewrite get_cons, bool_decide_eq_false_2; [done|]. rewrite Hr. congruence.
  - destruct (key_at path x) as [kx|] eqn:Hx.
    + destruct (key_compare k kx) eqn:Hc.
      * apply key_compare_Eq in Hc as <-.
        rewrite !get_cons, !bool_decide_eq_false_2; [done| |]; congruence.
      * rewrite (get_cons _ r), bool_decide_eq_false_2; [done|]. congruence.
      * rewrite !get_cons, IH. done.
    + rewrite !get_cons, IH. done.
Qed.

(** A write adds the record and removes nothing but records of its key. *)
Lemma elem_of_place (k : key) (r x : obj) (s : store) :
  x ∈ place path k r s → x = r ∨ x ∈ s.
Proof.
  induction s as [|y s IH]; simpl.
  - intros ->%list_elem_of_singleton. by left.
  - destruct (key_at path y) as [ky|]; [destruct (key_compare k ky)|];
      rewrite ?elem_of_cons; tauto.
Qed.

Lemma place_keeps (k : key) (r x : obj) (s : store) :
  x ∈ s → key_at path x ≠ Some k → x ∈ place path k r s.
Proof.
  induction s as [|y s IH]; simpl; [by intros ?%elem_of_nil|].
  intros Hin Hx. destruct (key_at path y) as [ky|] eqn:Hy.
  - destruct (key_compare k ky) eqn:Hc.
    + apply key_compare_Eq in Hc as <-.
      apply elem_of_cons in Hin as [->|Hin]; [congruence|].
      rewrite elem_of_cons; auto.
    + rewrite elem_of_cons; auto.
    + apply elem_of_cons in Hin as [->|Hin]; rewrite elem_of_cons; auto.
  - apply elem_of_cons in Hin as [->|Hin]; rewrite elem_of_cons; auto.
Qed.

Lemma place_has (k : key) (r : obj) (s : store) : r ∈ place path k r s.
Proof.
  induction s as [|y s IH]; simpl; [apply list_elem_of_singleton; done|].
  destruct (key_at path y) as [ky|]; [destruct (key_compare k ky)|];
    rewrite ?elem_of_cons; auto.
Qed.

End Stores.

(** ** Merge-updates *)

Section MergeUpdate.

Lemma keeps_key_spread (path k : string) (data updates : obj) :
  key_at path data = Some (KStr k) → keeps_key path k updates →
  key_at path (spread data updates) = Some (KStr k).
Proof.
  intros Hd Hk. unfold key_at, field in *.
  destruct (updates !! path) as [v|] eqn:Hu.
  - rewrite (spread_present _ _ _ _ Hu). by rewrite (Hk v Hu).
  - by rewrite spread_absent.
Qed.

Lemma clashes_false (path upath : string) (k : key) (r : obj) (s : store) :
  (∀ x, x ∈ s → is_Some (key_at upath r) →
        key_at upath x = key_at upath r → key_at path x = Some k) →
  clashes path upath k r s = false.
Proof.
  intros H. unfold clashes. destruct (key_at upath r) as [u|] eqn:Hr; [|done].
  apply not_true_is_false. intros Hex.
  apply existsb_exists in Hex as (x & Hin & Hx).
  apply andb_true_iff in Hx as [Hu Hk].
  apply bool_decide_eq_true in Hu. apply negb_true_iff in Hk.
  apply bool_decide_eq_false in Hk. apply Hk.
  apply H; [by apply list_elem_of_In | by eexists | done].
Qed.

Lemma clashes_true (path upath : string) (k : key) (r x : obj) (s : store) :
  x ∈ s → is_Some (key_at upath r) → key_at upath x = key_at upath r →
  key_at path x ≠ Some k → clashes path upath k r s = true.
Proof.
  intros Hin [u Hu] Hx Hk. unfold clashes. rewrite Hu.
  apply existsb_exists. exists x. split; [by apply list_elem_of_In|].
  rewrite Hx, Hu, bool_decide_eq_true_2, bool_decide_eq_false_2; done.
Qed.

(** What [merge_update] does when the engine is healthy, the key is there
    and the write is accepted. *)
Lemma merge_update_stored (path : string) (uniq : list string)
    (missing k : string) (updates data : obj) (s : store) :
  Idb.get path (KStr k) s = Some data →
  keeps_key path k updates →
  existsb (λ u, clashes path u (KStr k) (spread data updates) s) uniq = false →
  merge_update Healthy path uniq missing k updates s
  = (Resolved tt, place path (KStr k) (spread data updates) s)
  ∧ merged path k data updates s (place path (KStr k) (spread data updates) s).
Proof.
  intros Hget Hkeep Hclash.
  pose proof (get_Some _ _ _ _ Hget) as [Hin Hkey].
  pose proof (keeps_key_spread _ _ _ _ Hkey Hkeep) as Hk'.
  split.
  - unfold merge_update, put. rewrite Hget. cbn zeta. by rewrite Hk', Hclash.
  - exists (spread data updates). split; [by apply get_place_eq|].
    split; [apply spread_present|]. split; [apply spread_absent|].
    intros k' Hne. by apply get_place_ne.
Qed.

End MergeUpdate.

(** C1, as amended. A merge-update that leaves the primary key as it is
    (and, for a user, does not take the email of another user) stores the
    shallow merge under the id it was called with: every property of the
    update has the update's value in the stored record, every property
    absent from the update has the value it had, and no other record of
    the database changes. *)
Theorem merge_update_shallow_merge (db : DB) (id : string) (updates : obj) :
  (keeps_key STORE_REPORTS_keyPath id updates →
   report_update_merges db id updates)
  ∧ (unique_index STORE_USERS_keyPath "email" (users db) →
     keeps_key STORE_USERS_keyPath id updates →
     email_available id updates (users db) →
     user_update_merges db id updates).
Proof.
  split.
  - intros Hkeep data Hget.
    destruct (merge_update_stored STORE_REPORTS_keyPath STORE_REPORTS_unique
                "Report not found" id updates data (DbService.reports db)
                Hget Hkeep eq_refl) as [Hrun Hm].
    eexists. unfold updateReportInDb. rewrite Hrun. eauto.
  - intros Huniq Hkeep Havail data Hget.
    pose proof (get_Some _ _ _ _ Hget) as [Hin Hkey].
    assert (existsb (λ u, clashes STORE_USERS_keyPath u (KStr id)
                            (spread data updates) (users db))
              STORE_USERS_unique = false) as Hclash.
    { simpl. rewrite orb_false_r. apply clashes_false. intros x Hx Hsome Heq.
      unfold key_at, field in Hsome, Heq.
      destruct (updates !! "email") as [v|] eqn:Hu.
      - rewrite (spread_present _ _ _ _ Hu) in Hsome, Heq.
        by apply (Havail v x).
      - rewrite (spread_absent _ _ _ Hu) in Hsome, Heq.
        rewrite <- Hkey. apply Huniq; [done|done| |done].
        unfold key_at, field. by rewrite Heq. }
    destruct (merge_update_stored STORE_USERS_keyPath STORE_USERS_unique
                "User not found" id updates data (users db)
                Hget Hkeep Hclash) as [Hrun Hm].
    eexists. unfold updateUserInDb. rewrite Hrun. eauto.
Qed.

Lemma merge_update_shallow_merge_witness :
  report_update_merges Sample.sample_db "r1" {[ "status" := VStr "reviewed" ]}
  ∧ user_update_merges Sample.sample_db "u1" {[ "phone" := VStr "555" ]}.
Proof.
  pose proof (merge_update_shallow_merge Sample.sample_db) as H.
  split.
  - apply (proj1 (H "r1" {[ "status" := VStr "reviewed" ]})).
    intros v Hv. vm_compute in Hv. discriminate.
  - apply (proj2 (H "u1" {[ "phone" := VStr "555" ]})).
    + intros x y Hx Hy _ Heq.
      unfold Sample.sample_db in Hx, Hy. simpl in Hx, Hy.
      rewrite !elem_of_cons, elem_of_nil in Hx, Hy.
      destruct Hx as [->|[->|[]]], Hy as [->|[->|[]]];
        first [reflexivity | vm_compute in Heq; discriminate].
    + intros v Hv. vm_compute in Hv. discriminate.
    + intros v x Hv. vm_compute in Hv. discriminate.
Defined.

(** C1 as stated fails. An update to the email of another user is
    refused by the unique index: the call is rejected and nothing is
    stored. An update that names another id leaves the record under the
    id of the call as it was, and writes the merge under the new id. *)
Lemma merge_update_shallow_merge_counterexample :
  let email := {[ "email" := VStr "d@x.com" ]} : obj in
  let rename := {[ "id" := VStr "r9" ]} : obj in
  (updateUserInDb Healthy "u1" email Sample.sample_db
   = (Rejected (DomException "ConstraintError"), Sample.sample_db)
   ∧ ¬ user_update_merges Sample.sample_db "u1" email)
  ∧ (fst (updateReportInDb Healthy "r1" rename Sample.sample_db) = Resolved tt
     ∧ Idb.get STORE_REPORTS_keyPath (KStr "r1")
         (DbService.reports
            (snd (updateReportInDb Healthy "r1" rename Sample.sample_db)))
       = Some Sample.report1
     ∧ Idb.get STORE_REPORTS_keyPath (KStr "r9")
         (DbService.reports
            (snd (updateReportInDb Healthy "r1" rename Sample.sample_db)))
       = Some (spread Sample.report1 rename)
     ∧ ¬ report_update_merges Sample.sample_db "r1" rename).
Proof.
  intros email rename. split; [split|split; [|split; [|split]]].
  - vm_compute. reflexivity.
  - intros H. destruct (H Sample.alice eq_refl) as (db' & Hrun & _).
    apply (f_equal fst) in Hrun. vm_compute in Hrun. discriminate.
  - vm_compute. reflexivity.
  - apply (bool_decide_unpack _). vm_compute. exact I.
  - apply (bool_decide_unpack _). vm_compute. exact I.
  - intros H.
    destruct (H Sample.report1 eq_refl) as (db' & _ & _ & r & Hget & Hupd & _).
    apply get_Some in Hget as [_ Hkey].
    unfold key_at, field, STORE_REPORTS_keyPath in Hkey.
    rewrite (Hupd "id" (VStr "r9") eq_refl) in Hkey. discriminate.
Qed.

(** C2. A merge-update on an id that has no record writes nothing,
    whatever the engine does, and with a healthy engine it is rejected
    with the not-found error of its collection. *)
Theorem merge_update_missing_id (eng : engine) (db : DB) (id : string)
    (updates : obj) :
  (Idb.get STORE_REPORTS_keyPath (KStr id) (DbService.reports db) = None →
   snd (updateReportInDb eng id updates db) = db
   ∧ updateReportInDb Healthy id updates db
     = (Rejected (JsError "Report not found"), db))
  ∧ (Idb.get STORE_USERS_keyPath (KStr id) (users db) = None →
     snd (updateUserInDb eng id updates db) = db
     ∧ updateUserInDb Healthy id updates db
       = (Rejected (JsError "User not found"), db)).
Proof.
  destruct db as [us rs].
  split; intros Hget; simpl in Hget;
    unfold updateReportInDb, updateUserInDb, merge_update; simpl;
    rewrite Hget; by destruct eng.
Qed.

Lemma merge_update_missing_id_witness :
  updateReportInDb Healthy "r404" {[ "status" := VStr "reviewed" ]} Sample.sample_db
  = (Rejected (JsError "Report not found"), Sample.sample_db)
  ∧ updateUserInDb Healthy "u404" {[ "phone" := VStr "555" ]} Sample.sample_db
    = (Rejected (JsError "User not found"), Sample.sample_db).
Proof.
  split.
  - apply (proj1 (merge_update_missing_id Healthy Sample.sample_db "r404"
                    {[ "status" := VStr "reviewed" ]})).
    reflexivity.
  - apply (proj2 (merge_update_missing_id Healthy Sample.sample_db "u404"
                    {[ "phone" := VStr "555" ]})).
    reflexivity.
Defined.

(** ** Registration *)

Section Registration.

Lemma filter_none (P : obj → Prop) `{∀ x, Decision (P x)} (s : store) :
  (∀ y, y ∈ s → ¬ P y) → filter P s = [].
Proof.
  induction s as [|a s IH]; intros Hs; [done|].
  rewrite filter_cons_False; [|apply Hs, list_elem_of_here].
  apply IH. intros y Hy. apply Hs. by apply list_elem_of_further.
Qed.

(** In an ascending store at most one record satisfies a predicate that
    determines the key. *)
Lemma filter_ascending_singleton (path : string) (P : obj → Prop)
    `{∀ x, Decision (P x)} (s : store) (u : obj) :
  ascending path s →
  (∀ x y, x ∈ s → y ∈ s → P x → P y → key_at path x = key_at path y) →
  u ∈ s → P u → filter P s = [u].
Proof.
  intros [_ Hsorted]. induction Hsorted as [|a s Hs IH Hlt]; intros Hkey Hin HP.
  - by apply elem_of_nil in Hin.
  - assert (∀ y, y ∈ s → key_at path a ≠ key_at path y) as Hfresh.
    { intros y Hy Heq. rewrite Forall_forall in Hlt.
      destruct (Hlt y Hy) as (ka & ky & Ha & Hy' & Hc).
      rewrite Ha, Hy' in Heq. injection Heq as ->.
      by rewrite key_compare_refl in Hc. }
    rewrite filter_cons. destruct (decide (P a)) as [Pa|nPa].
    + assert (u = a) as ->.
      { apply elem_of_cons in Hin as [->|Hin]; [done|].
        exfalso. apply (Hfresh u Hin). apply Hkey; rewrite ?elem_of_cons; auto. }
      f_equal. apply filter_none. intros y Hy Py.
      apply (Hfresh y Hy). apply Hkey; rewrite ?elem_of_cons; auto.
    + apply elem_of_cons in Hin as [->|Hin]; [done|].
      apply IH; [|done|done].
      intros x y Hx Hy. apply Hkey; rewrite elem_of_cons; auto.
Qed.

Lemma index_getAll_unique (us : store) (u : obj) (email : string) :
  users_ok us → u ∈ us → field u "email" = VStr email →
  index_getAll "email" (KStr email) us = [u].
Proof.
  intros [Hasc Huniq] Hin Hemail. unfold index_getAll.
  apply (filter_ascending_singleton STORE_USERS_keyPath); [done| |done|].
  - intros x y Hx Hy Px Py. apply Huniq; [done|done|by rewrite Px|congruence].
  - unfold key_at. by rewrite Hemail.
Qed.

End Registration.

(** C3. When the store already has a user with the email, [registerUser]
    with that email is rejected with the error of the existence check,
    the database is the one before the call whatever the engine does, and
    it holds exactly one user with that email: the one that was there. *)
Theorem registerUser_duplicate_email (eng : engine) (now : N)
    (iso rnd email pass name : string) (role : UserRole)
    (specialization : option string) (db : DB) (u : obj) :
  users_ok (users db) → u ∈ users db → field u "email" = VStr email →
  registerUser Healthy now iso rnd email pass name role specialization db
  = (Rejected (JsError "User with this email already exists."), db)
  ∧ snd (registerUser eng now iso rnd email pass name role specialization db) = db
  ∧ index_getAll "email" (KStr email)
      (users (snd (registerUser eng now iso rnd email pass name role
                     specialization db))) = [u].
Proof.
  intros Hok Hin Hemail.
  pose proof (index_getAll_unique _ _ _ Hok Hin Hemail) as Hall.
  assert (snd (registerUser eng now iso rnd email pass name role
                 specialization db) = db) as Hsame.
  { unfold registerUser, index_get. rewrite Hall. by destruct eng. }
  split; [|split; [done|by rewrite Hsame]].
  unfold registerUser, index_get. by rewrite Hall.
Qed.

Lemma sample_users_ok : users_ok (users Sample.sample_db).
Proof.
  split; [split|].
  - repeat constructor; by eexists.
  - repeat constructor; eexists _, _; repeat split; reflexivity.
  - intros x y Hx Hy _ Heq. simpl in Hx, Hy.
    rewrite !elem_of_cons, elem_of_nil in Hx, Hy.
    destruct Hx as [->|[->|[]]], Hy as [->|[->|[]]];
      first [reflexivity | vm_compute in Heq; discriminate].
Qed.

Lemma registerUser_duplicate_email_witness :
  registerUser Healthy 1700000000000 "2023-11-14T22:13:20.000Z" "k3j9x0q2a"
    "a@x.com" "other" "Mallory" DOCTOR (Some "Surgery") Sample.sample_db
  = (Rejected (JsError "User with this email already exists."), Sample.sample_db)
  ∧ index_getAll "email" (KStr "a@x.com") (users Sample.sample_db)
    = [Sample.alice].
Proof.
  destruct (registerUser_duplicate_email Healthy 1700000000000
              "2023-11-14T22:13:20.000Z" "k3j9x0q2a" "a@x.com" "other"
              "Mallory" DOCTOR (Some "Surgery") Sample.sample_db Sample.alice)
    as (Hrun & Hsame & Hone).
  - exact sample_users_ok.
  - simpl. apply list_elem_of_here.
  - reflexivity.
  - split; [exact Hrun|]. rewrite Hsame in Hone. exact Hone.
Defined.

(** ** Listings of reports *)

Section Sorting.

Lemma by_timestamp_desc_spec (a b : obj) (ta tb : Z) :
  timestamp a = Some ta → timestamp b = Some tb →
  by_timestamp_desc a b = (tb - ta)%Z.
Proof. unfold timestamp, by_timestamp_desc. by intros -> ->. Qed.

(** The comparator is positive only between two numbers that differ. *)
Lemma by_timestamp_desc_pos (a b : obj) :
  (0 < by_timestamp_desc a b)%Z →
  ∃ ta tb, timestamp a = Some ta ∧ timestamp b = Some tb ∧ (ta < tb)%Z.
Proof.
  unfold timestamp, by_timestamp_desc.
  destruct (to_number (field b "timestamp")) as [tb|],
           (to_number (field a "timestamp")) as [ta|]; try lia.
  intros H. exists ta, tb. repeat split. lia.
Qed.

Lemma sort_insert_perm (cmp : obj → obj → Z) (x : obj) (l : list obj) :
  sort_insert cmp x l ≡ₚ x :: l.
Proof.
  induction l as [|y l IH]; simpl; [done|].
  destruct (cmp x y <=? 0)%Z; [done|].
  rewrite IH. apply Permutation_swap.
Qed.

Lemma array_sort_perm (cmp : obj → obj → Z) (l : list obj) :
  array_sort cmp l ≡ₚ l.
Proof.
  induction l as [|x l IH]; simpl; [done|].
  by rewrite sort_insert_perm, IH.
Qed.

Lemma sort_insert_sorted (x : obj) (l : list obj) :
  has_timestamp x → Forall has_timestamp l →
  StronglySorted not_older l →
  StronglySorted not_older (sort_insert by_timestamp_desc x l).
Proof.
  intros [tx Hx] Hl Hs. induction Hs as [|y l Hs IH Hy]; simpl.
  - repeat constructor.
  - apply Forall_cons in Hl as [[ty Hty] Hl].
    rewrite (by_timestamp_desc_spec x y tx ty Hx Hty).
    destruct (Z.leb_spec (ty - tx) 0) as [Hle|Hgt].
    + constructor; [by constructor|].
      assert (not_older x y) as Hxy by (exists tx, ty; repeat split; [done..|lia]).
      constructor; [done|].
      eapply Forall_impl; [exact Hy|]. intros z (ty' & tz & Hty' & Hz & Hle').
      exists tx, tz. repeat split; [done..|]. simplify_eq. lia.
    + constructor; [by apply IH|].
      rewrite sort_insert_perm. constructor; [|done].
      exists ty, tx. repeat split; [done..|lia].
Qed.

Lemma array_sort_sorted (l : list obj) :
  Forall has_timestamp l →
  StronglySorted not_older (array_sort by_timestamp_desc l).
Proof.
  induction l as [|x l IH]; intros Hl; simpl; [constructor|].
  apply Forall_cons in Hl as [Hx Hl].
  apply sort_insert_sorted; [done| |by apply IH].
  by rewrite array_sort_perm.
Qed.

(** Stability: inserting passes only records of another timestamp. *)
Lemma sort_insert_stable (t : Z) (x : obj) (l : list obj) :
  filter (λ r, timestamp r = Some t) (sort_insert by_timestamp_desc x l)
  = filter (λ r, timestamp r = Some t) (x :: l).
Proof.
  induction l as [|y l IH]; simpl; [done|].
  destruct (Z.leb_spec (by_timestamp_desc x y) 0) as [Hle|Hgt]; [done|].
  apply by_timestamp_desc_pos in Hgt as (tx & ty & Hx & Hy & Hlt).
  rewrite (filter_cons _ y), IH, !(filter_cons _ x), (filter_cons _ y).
  destruct (decide (timestamp y = Some t)) as [Hyt|]; [|done].
  destruct (decide (timestamp x = Some t)) as [Hxt|]; [|done].
  rewrite Hx in Hxt. rewrite Hy in Hyt. simplify_eq. lia.
Qed.

Lemma array_sort_stable (t : Z) (l : list obj) :
  filter (λ r, timestamp r = Some t) (array_sort by_timestamp_desc l)
  = filter (λ r, timestamp r = Some t) l.
Proof.
  induction l as [|x l IH]; simpl; [done|].
  by rewrite sort_insert_stable, !filter_cons, IH.
Qed.

Lemma array_sort_selection (P : obj → Prop) `{∀ x, Decision (P x)} (s : store) :
  Forall has_timestamp s →
  newest_first_selection P s (array_sort by_timestamp_desc (filter P s)).
Proof.
  intros Hs. split; [apply array_sort_perm|]. split.
  { intros r. rewrite array_sort_perm, list_elem_of_filter. tauto. }
  split; [|intros t; apply array_sort_stable].
  apply array_sort_sorted. apply Forall_forall. intros r [_ Hr]%list_elem_of_filter.
  rewrite Forall_forall in Hs. by apply Hs.
Qed.

Lemma key_at_str (f : string) (r : obj) (k : string) :
  key_at f r = Some (KStr k) ↔ field r f = VStr k.
Proof.
  unfold key_at. split; [|by intros ->].
  destruct (field r f); simpl; congruence.
Qed.

Lemma index_getAll_str (f k : string) (s : store) :
  index_getAll f (KStr k) s = filter (λ r, field r f = VStr k) s.
Proof. apply list_filter_iff. intros r. apply key_at_str. Qed.

End Sorting.

(** C4. With a healthy engine, and every stored report carrying a numeric
    timestamp, [fetchReportsForSpecificDoctor] resolves to exactly the
    stored reports whose [targetDoctorId] is the doctor's id, newest
    first, reports of one timestamp in the order of the store; and
    [fetchPatientReports] does the same by [userId]. *)
Theorem fetch_reports_by_index (db : DB) (id : string) :
  Forall has_timestamp (DbService.reports db) →
  (∃ l, fetchReportsForSpecificDoctor Healthy id db = Resolved l
      ∧ newest_first_selection (λ r, field r "targetDoctorId" = VStr id)
          (DbService.reports db) l)
  ∧ (∃ l, fetchPatientReports Healthy id db = Resolved l
        ∧ newest_first_selection (λ r, field r "userId" = VStr id)
            (DbService.reports db) l).
Proof.
  intros Hts. split; eexists; (split; [reflexivity|]);
    rewrite index_getAll_str; by apply array_sort_selection.
Qed.

Lemma fetch_reports_by_index_witness :
  (∃ l, fetchReportsForSpecificDoctor Healthy "u2" Sample.sample_db = Resolved l
      ∧ newest_first_selection (λ r, field r "targetDoctorId" = VStr "u2")
          (DbService.reports Sample.sample_db) l)
  ∧ (∃ l, fetchPatientReports Healthy "u2" Sample.sample_db = Resolved l
        ∧ newest_first_selection (λ r, field r "userId" = VStr "u2")
            (DbService.reports Sample.sample_db) l).
Proof.
  apply (fetch_reports_by_index Sample.sample_db "u2").
  repeat constructor; by eexists.
Defined.

(** The listing of the sample database for doctor [u2]: the two reports
    of timestamp 200 in key order, then the older one. *)
Example fetch_reports_sample :
  fetchReportsForSpecificDoctor Healthy "u2" Sample.sample_db
  = Resolved [Sample.report0; Sample.report2; Sample.report1].
Proof. reflexivity. Qed.

(** ** The actions of the store *)

Section Actions.

Lemma rewrite_status_rewritten (id : string) (status : value)
    (notes : option string) (r : obj) :
  rewritten id status notes r (rewrite_status id status notes r).
Proof.
  unfold rewritten, rewrite_status. split; intros Hid.
  - rewrite bool_decide_eq_true_2 by done. unfold spread.
    split; [|split].
    + apply lookup_union_Some_l. by rewrite lookup_insert_eq.
    + apply lookup_union_Some_l.
      rewrite lookup_insert_ne by done. by rewrite lookup_singleton_eq.
    + intros f Hs Hn. apply lookup_union_r.
      rewrite lookup_insert_ne by done. by rewrite lookup_singleton_ne.
  - by rewrite bool_decide_eq_false_2.
Qed.

Lemma rewrite_status_all (id : string) (status : value)
    (notes : option string) (l : list obj) :
  Forall2 (rewritten id status notes) l (rewrite_status id status notes <$> l).
Proof.
  induction l as [|r l IH]; simpl; constructor; [|done].
  apply rewrite_status_rewritten.
Qed.

(** The run of [updateReportStatus], by how the promise of
    [updateReportInDb] ends. *)
Lemma run_updateReportStatus (id : string) (status : value)
    (notes : option string) (eng : engine) (st : AppState) (d : DB)
    (tr : list event) :
  run (updateReportStatus id status notes) eng
    {| app := st; db := d; trace := tr |}
  = after_write id status notes st tr
      (fst (updateReportInDb eng id (status_update status notes) d))
      (snd (updateReportInDb eng id (status_update status notes) d)).
Proof.
  unfold updateReportStatus, after_write, status_update. cbn.
  destruct (updateReportInDb eng id _ d) as [[[]|e|] d']; cbn;
    by rewrite <- ?(assoc_L (++)).
Qed.

(** The runs of [loadReports] that await a fetch, by how the fetch ends. *)
Section LoadReports.

Variables (eng : engine) (st : AppState) (d : DB) (tr : list event).
Variable uid : string.
Hypothesis identity : currentUserId st = Some uid.
Hypothesis nonempty : uid ≠ "".

Let w : world := {| app := st; db := d; trace := tr |}.

Lemma run_loadReports_patient :
  currentUserRole st = PATIENT →
  run loadReports eng w
  = after_fetch st d tr (FetchPatientReports uid) (fetchPatientReports eng uid d).
Proof using identity nonempty.
  intros Hrole. unfold loadReports, after_fetch, w. cbn.
  rewrite Hrole, identity. cbn.
  rewrite (bool_decide_eq_false_2 (uid = "")) by done.
  rewrite (bool_decide_eq_true_2 (PATIENT = PATIENT)) by done. cbn.
  destruct (fetchPatientReports eng uid d); cbn;
    by rewrite <- ?(assoc_L (++)).
Qed.

Lemma run_loadReports_doctor :
  currentUserRole st = DOCTOR →
  run loadReports eng w
  = after_fetch st d tr (FetchReportsForSpecificDoctor uid)
      (fetchReportsForSpecificDoctor eng uid d).
Proof using identity nonempty.
  intros Hrole. unfold loadReports, after_fetch, w. cbn.
  rewrite Hrole, identity. cbn.
  rewrite (bool_decide_eq_false_2 (uid = "")) by done.
  rewrite (bool_decide_eq_false_2 (DOCTOR = PATIENT)) by done.
  rewrite (bool_decide_eq_true_2 (DOCTOR = DOCTOR)) by done. cbn.
  destruct (fetchReportsForSpecificDoctor eng uid d); cbn;
    by rewrite <- ?(assoc_L (++)).
Qed.

End LoadReports.

(** When the database cannot be opened the promise of the fetch never
    settles: [loadReports] stays suspended, with the loading flag set. *)
Lemma run_loadReports_open_fails (st : AppState) (d : DB) (tr : list event)
    (uid : string) :
  currentUserId st = Some uid → uid ≠ "" →
  currentUserRole st = PATIENT ∨ currentUserRole st = DOCTOR →
  ∃ tr', run loadReports OpenFails {| app := st; db := d; trace := tr |}
         = (Hangs, {| app := set_isLoading true st; db := d; trace := tr' |}).
Proof.
  intros Hid Hne [Hrole|Hrole]; eexists.
  - rewrite (run_loadReports_patient OpenFails st d tr uid) by done. reflexivity.
  - rewrite (run_loadReports_doctor OpenFails st d tr uid) by done. reflexivity.
Qed.

End Actions.

(** C5. [updateReportStatus] rewrites the in-memory reports before it
    suspends: up to its first await, the one on [updateReportInDb], it
    has done one [set], after which every report with the id has the new
    status and notes and every other report is untouched. The collection
    is the same rewritten one when the run ends, however the store write
    ends; a rejected write is only logged, and the action still returns
    normally. *)
Theorem updateReportStatus_optimistic (id : string) (status : value)
    (notes : option string) (eng : engine) (st : AppState) (d : DB)
    (tr : list event) :
  let action := updateReportStatus id status notes in
  let w := {| app := st; db := d; trace := tr |} in
  let st' := set_reports (rewrite_status id status notes <$> reports st) st in
  (∃ k h,
      run_sync action st tr
      = (Await (UpdateReportInDb id (status_update status notes)) k h,
         st', (tr ++ [StateSet st'])%list))
  ∧ Forall2 (rewritten id status notes) (reports st) (reports st')
  ∧ app (snd (run action eng w)) = st'
  ∧ (∀ e, fst (updateReportInDb eng id (status_update status notes) d)
          = Rejected e →
          fst (run action eng w) = Returned tt
          ∧ app (snd (run action eng w)) = st'
          ∧ trace (snd (run action eng w))
            = (tr ++ [StateSet st';
                      Called (UpdateReportInDb id (status_update status notes));
                      Logged "Failed to update report in DB" e])%list).
Proof.
  intros action w st'. subst action w.
  rewrite run_updateReportStatus.
  split; [|split; [|split]].
  - eexists _, _. reflexivity.
  - apply rewrite_status_all.
  - unfold after_write. by destruct (fst (updateReportInDb eng id _ d)).
  - intros e ->. unfold after_write. cbn. by rewrite <- (assoc_L (++)).
Qed.

Lemma updateReportStatus_optimistic_witness :
  let st := set_reports [Sample.report1; Sample.report2] initialState in
  let action := updateReportStatus "r1" (VStr "reviewed") (Some "ok") in
  let w := {| app := st; db := empty_db; trace := [] |} in
  let st' := set_reports (rewrite_status "r1" (VStr "reviewed") (Some "ok")
                            <$> [Sample.report1; Sample.report2]) st in
  fst (run action Healthy w) = Returned tt
  ∧ app (snd (run action Healthy w)) = st'
  ∧ trace (snd (run action Healthy w))
    = [StateSet st';
       Called (UpdateReportInDb "r1"
                 (status_update (VStr "reviewed") (Some "ok")));
       Logged "Failed to update report in DB" (JsError "Report not found")].
Proof.
  intros st action w st'.
  apply (proj2 (proj2 (proj2
           (updateReportStatus_optimistic "r1" (VStr "reviewed") (Some "ok")
              Healthy st empty_db [])))).
  reflexivity.
Defined.

(** The two settled paths of [loadReports]. With an identity in the
    session, a [loadReports] whose fetch is
    rejected returns normally: the reports held are those held before,
    nothing else of the state differs from the state before apart from
    the loading flag, which is false, and the failure is only logged. When
    the fetch resolves, the reports held are the fetched ones and the
    loading flag is false as well. *)
Theorem loadReports_fetch_failure (eng : engine) (st : AppState) (d : DB)
    (tr : list event) (uid : string) (fetch : outcome (list obj)) :
  currentUserId st = Some uid → uid ≠ "" →
  (currentUserRole st = PATIENT ∧ fetch = fetchPatientReports eng uid d)
  ∨ (currentUserRole st = DOCTOR
     ∧ fetch = fetchReportsForSpecificDoctor eng uid d) →
  let end_ := run loadReports eng {| app := st; db := d; trace := tr |} in
  (∀ e, fetch = Rejected e →
        fst end_ = Returned tt
        ∧ reports (app (snd end_)) = reports st
        ∧ isLoading (app (snd end_)) = false
        ∧ app (snd end_) = set_isLoading false st
        ∧ last (trace (snd end_)) = Some (StateSet (set_isLoading false st))
        ∧ Logged "Failed to load reports" e ∈ trace (snd end_))
  ∧ (∀ l, fetch = Resolved l →
          fst end_ = Returned tt
          ∧ reports (app (snd end_)) = l
          ∧ isLoading (app (snd end_)) = false).
Proof.
  intros Hid Hne Hfetch end_.
  assert (∃ R (c : call R), end_ = after_fetch st d tr c fetch) as (R & c & ->).
  { destruct Hfetch as [[Hrole ->]|[Hrole ->]]; eexists _, _; subst end_.
    - by apply run_loadReports_patient.
    - by apply run_loadReports_doctor. }
  split.
  - intros e ->. cbn. do 4 (split; [done|]). split.
    + match goal with
      | |- last (?l ++ [?a; ?b]) = _ =>
          change (l ++ [a; b])%list with (l ++ [a] ++ [b])%list
      end.
      rewrite (assoc_L (++)). apply last_snoc.
    + rewrite !elem_of_app, !elem_of_cons. auto.
  - intros l ->. done.
Qed.

Lemma loadReports_fetch_failure_witness :
  let st := Sample.session DOCTOR (Some "u2") [Sample.report1] in
  let end_ := run loadReports (ReadFails "UnknownError")
                {| app := st; db := Sample.sample_db; trace := [] |} in
  fst end_ = Returned tt
  ∧ reports (app (snd end_)) = [Sample.report1]
  ∧ isLoading (app (snd end_)) = false
  ∧ app (snd end_) = set_isLoading false st
  ∧ last (trace (snd end_)) = Some (StateSet (set_isLoading false st))
  ∧ Logged "Failed to load reports" (DomException "UnknownError")
    ∈ trace (snd end_).
Proof.
  intros st end_.
  apply (proj1 (loadReports_fetch_failure (ReadFails "UnknownError") st
                  Sample.sample_db [] "u2"
                  (Rejected (DomException "UnknownError"))
                  eq_refl ltac:(discriminate) (or_intror (conj eq_refl eq_refl)))).
  reflexivity.
Defined.

(** C6, at a failure to open the database. The fetches of [loadReports]
    wrap [openDB().then(...)] in a promise and give the rejection of
    [openDB()] no handler, so when the database cannot be opened the fetch
    is neither resolved nor rejected. [loadReports] of a patient or doctor
    session then never leaves its await: neither the catch nor the
    finally runs, the loading flag that it set stays true, and the reports
    are those held before. The merge-updates, which [await openDB()], are
    rejected with the error of [openDB] on the same failure. *)
Theorem loadReports_open_failure_keeps_loading (st : AppState) (d : DB)
    (tr : list event) (uid : string) :
  let end_ := run loadReports OpenFails {| app := st; db := d; trace := tr |} in
  currentUserId st = Some uid → uid ≠ "" →
  currentUserRole st = PATIENT ∨ currentUserRole st = DOCTOR →
  fetchPatientReports OpenFails uid d = Pending
  ∧ fetchReportsForSpecificDoctor OpenFails uid d = Pending
  ∧ fst end_ = Hangs
  ∧ isLoading (app (snd end_)) = true
  ∧ reports (app (snd end_)) = reports st
  ∧ (StateSet (set_isLoading false st) ∉ drop (length tr) (trace (snd end_)))
  ∧ (∀ id updates,
       updateReportInDb OpenFails id updates d
       = (Rejected (JsError "Failed to open database"), d))
  ∧ (∀ id updates,
       updateUserInDb OpenFails id updates d
       = (Rejected (JsError "Failed to open database"), d)).
Proof.
  intros end_ Hid Hne Hrole.
  split; [reflexivity|]. split; [reflexivity|].
  assert (∃ R (c : call R),
            end_ = (Hangs, {| app := set_isLoading true st; db := d;
                              trace := tr ++ [StateSet (set_isLoading true st);
                                              Called c] |}))
    as (R & c & ->).
  { subst end_. destruct Hrole as [Hrole|Hrole]; eexists _, _.
    - by rewrite (run_loadReports_patient OpenFails st d tr uid Hid Hne Hrole).
    - by rewrite (run_loadReports_doctor OpenFails st d tr uid Hid Hne Hrole). }
  cbn [fst snd app trace isLoading reports set_isLoading].
  do 3 (split; [done|]). split; [|split].
  - rewrite drop_app_length, !elem_of_cons, elem_of_nil.
    intros [Heq|[Heq|[]]]; [|discriminate].
    injection Heq as Heq. discriminate.
  - intros id updates. by destruct d.
  - intros id updates. by destruct d.
Qed.

Lemma loadReports_open_failure_keeps_loading_witness :
  let st := Sample.session PATIENT (Some "u1") [Sample.report1] in
  let end_ := run loadReports OpenFails
                {| app := st; db := Sample.sample_db; trace := [] |} in
  fetchPatientReports OpenFails "u1" Sample.sample_db = Pending
  ∧ fst end_ = Hangs
  ∧ isLoading (app (snd end_)) = true
  ∧ reports (app (snd end_)) = [Sample.report1].
Proof.
  intros st end_.
  destruct (loadReports_open_failure_keeps_loading st Sample.sample_db [] "u1"
              eq_refl ltac:(discriminate) (or_introl eq_refl))
    as (Hfetch & _ & Hhangs & Hloading & Hreports & _).
  by repeat split.
Defined.

(** A run only adds to the trace. *)
Lemma run_trace_extends {A : Type} (t : task A) (eng : engine) (w : world) :
  ∃ evs, trace (snd (run t eng w)) = (trace w ++ evs)%list.
Proof.
  revert w. induction t as [a|e|k IH|f k IH|m e k IH|R c k IHk h IHh]; intros w; cbn.
  - exists []. by rewrite app_nil_r.
  - exists []. by rewrite app_nil_r.
  - apply IH.
  - destruct (IH {| app := f (app w); db := db w;
                    trace := trace w ++ [StateSet (f (app w))] |}) as [evs ->].
    cbn. rewrite <- (assoc_L (++)). by eexists.
  - destruct (IH {| app := app w; db := db w;
                    trace := trace w ++ [Logged m e] |}) as [evs ->].
    cbn. rewrite <- (assoc_L (++)). by eexists.
  - destruct (perform c eng (db w)) as [[r|e|] d'].
    + destruct (IHk r {| app := app w; db := d';
                         trace := trace w ++ [Called c] |}) as [evs ->].
      cbn. rewrite <- (assoc_L (++)). by eexists.
    + destruct (IHh e {| app := app w; db := d';
                         trace := trace w ++ [Called c] |}) as [evs ->].
      cbn. rewrite <- (assoc_L (++)). by eexists.
    + cbn. by eexists.
Qed.

(** C9, as amended. With the role DOCTOR and no identity (the id is null
    or the empty string) [loadReports] does not return early: without
    calling any service it sets the loading flag, replaces the reports
    held by the empty list and clears the loading flag. The call does
    nothing at all, leaving state and trace as they were, exactly when the
    id is null or the empty string and the role is not DOCTOR. *)
Theorem loadReports_without_identity (eng : engine) (st : AppState) (d : DB)
    (tr : list event) :
  let w := {| app := st; db := d; trace := tr |} in
  (truthy_id (currentUserId st) = false → currentUserRole st = DOCTOR →
   let loading := set_isLoading true st in
   let emptied := set_reports [] loading in
   run loadReports eng w
   = (Returned tt,
      {| app := set_isLoading false emptied; db := d;
         trace := tr ++ [StateSet loading; StateSet emptied;
                         StateSet (set_isLoading false emptied)] |}))
  ∧ (run loadReports eng w = (Returned tt, w)
     ↔ truthy_id (currentUserId st) = false ∧ currentUserRole st ≠ DOCTOR).
Proof.
  intros w. split.
  - intros Hid Hrole. unfold loadReports, w. cbn. rewrite Hid, Hrole.
    rewrite (bool_decide_eq_false_2 (DOCTOR ≠ DOCTOR)) by (by intros []).
    rewrite (bool_decide_eq_false_2 (DOCTOR = PATIENT)) by done.
    rewrite !andb_false_r. cbn.
    by rewrite <- !(assoc_L (++)).
  - unfold loadReports, w. cbn.
    destruct (truthy_id (currentUserId st)) eqn:Hid; cbn;
      [|destruct (decide (currentUserRole st = DOCTOR)) as [Hrole|Hrole]].
    + split; [|by intros [? _]]. intros Hrun. exfalso.
      match type of Hrun with run ?t ?e ?w' = _ =>
        destruct (run_trace_extends t e w') as [evs Htr]; rewrite Hrun in Htr end.
      clear Hrun. cbn in Htr. apply (f_equal length) in Htr.
      rewrite !length_app in Htr. cbn in Htr. lia.
    + rewrite (bool_decide_eq_false_2 (currentUserRole st ≠ DOCTOR)) by tauto.
      cbn. split; [|by intros [_ ?]]. intros Hrun. exfalso.
      match type of Hrun with run ?t ?e ?w' = _ =>
        destruct (run_trace_extends t e w') as [evs Htr]; rewrite Hrun in Htr end.
      clear Hrun. cbn in Htr. apply (f_equal length) in Htr.
      rewrite !length_app in Htr. cbn in Htr. lia.
    + rewrite (bool_decide_eq_true_2 (currentUserRole st ≠ DOCTOR)) by done.
      done.
Qed.

Lemma loadReports_without_identity_witness :
  let st := Sample.session DOCTOR None [Sample.report1] in
  let loading := set_isLoading true st in
  let emptied := set_reports [] loading in
  run loadReports Healthy {| app := st; db := Sample.sample_db; trace := [] |}
  = (Returned tt,
     {| app := set_isLoading false emptied; db := Sample.sample_db;
        trace := [StateSet loading; StateSet emptied;
                  StateSet (set_isLoading false emptied)] |}).
Proof.
  intros st.
  apply (proj1 (loadReports_without_identity Healthy st Sample.sample_db []));
    reflexivity.
Defined.

(** C9 as stated fails: with the empty string as id, which is not null,
    and a role other than DOCTOR, the call returns at once. *)
Lemma loadReports_without_identity_counterexample :
  let st := Sample.session PATIENT (Some "") [Sample.report1] in
  let w := {| app := st; db := Sample.sample_db; trace := [] |} in
  run loadReports Healthy w = (Returned tt, w)
  ∧ currentUserId st ≠ None.
Proof. split; [reflexivity | discriminate]. Qed.

(** ** Owner and routing of a report *)

Section Routing.

(** A merge-update that keeps the key leaves a property it does not
    mention as it was, under every key of the store and however the
    engine behaves. *)
Lemma merge_update_keeps_field (eng : engine) (path : string)
    (uniq : list string) (missing k : string) (updates : obj) (s : store)
    (f : string) (k' : key) :
  keeps_key path k updates → updates !! f = None →
  option_Forall2 (λ r r', r' !! f = r !! f)
    (Idb.get path k' s)
    (Idb.get path k' (snd (merge_update eng path uniq missing k updates s))).
Proof.
  intros Hkeep Hf.
  assert (option_Forall2 (λ r r' : obj, r' !! f = r !! f)
            (Idb.get path k' s) (Idb.get path k' s)) as Hrefl.
  { destruct (Idb.get path k' s); by constructor. }
  unfold merge_update.
  destruct (Idb.get path (KStr k) s) as [data|] eqn:Hget;
    [|by destruct eng].
  pose proof (get_Some _ _ _ _ Hget) as [_ Hkey].
  pose proof (keeps_key_spread _ _ _ _ Hkey Hkeep) as Hk'.
  unfold put. rewrite Hk'.
  destruct (existsb _ uniq); [by destruct eng|].
  destruct eng; cbn [write_request snd]; try done.
  destruct (decide (k' = KStr k)) as [->|Hne].
  - rewrite Hget, get_place_eq by done. constructor. by apply spread_absent.
  - by rewrite get_place_ne.
Qed.

Lemma status_update_keeps_key (id : string) (status : value)
    (notes : option string) :
  keeps_key STORE_REPORTS_keyPath id (status_update status notes).
Proof. intros v Hv. vm_compute in Hv. discriminate. Qed.

Lemma updateReportInDb_keeps_routing (eng : engine) (id : string)
    (status : value) (notes : option string) (d : DB) (k : key) :
  option_Forall2 same_routing
    (Idb.get STORE_REPORTS_keyPath k (DbService.reports d))
    (Idb.get STORE_REPORTS_keyPath k
       (DbService.reports
          (snd (updateReportInDb eng id (status_update status notes) d)))).
Proof.
  pose proof (merge_update_keeps_field eng STORE_REPORTS_keyPath
                STORE_REPORTS_unique "Report not found" id
                (status_update status notes) (DbService.reports d)
                "userId" k (status_update_keeps_key id status notes) eq_refl)
    as Hu.
  pose proof (merge_update_keeps_field eng STORE_REPORTS_keyPath
                STORE_REPORTS_unique "Report not found" id
                (status_update status notes) (DbService.reports d)
                "targetDoctorId" k (status_update_keeps_key id status notes)
                eq_refl) as Ht.
  unfold updateReportInDb.
  destruct (merge_update eng _ _ _ id _ (DbService.reports d)) as [o rs].
  cbn in *.
  destruct Hu as [r r' Hu|]; inversion Ht; subst; constructor.
  by split.
Qed.

Lemma rewritten_same_routing (id : string) (status : value)
    (notes : option string) (r r' : obj) :
  rewritten id status notes r r' → same_routing r r'.
Proof.
  intros [Hyes Hno]. destruct (decide (field r "id" = VStr id)) as [Hid|Hid].
  - destruct (Hyes Hid) as (_ & _ & Hrest). split; by apply Hrest.
  - by rewrite (Hno Hid).
Qed.

End Routing.

(** C8. [updateReportStatus] changes neither the owner nor the routing of
    any report: the in-memory reports have, position by position, the
    [userId] and [targetDoctorId] they had, and so has the record under
    every key of the store, after the merge that the action issues and
    however that merge ends. *)
Theorem updateReportStatus_keeps_routing (id : string) (status : value)
    (notes : option string) (eng : engine) (st : AppState) (d : DB)
    (tr : list event) :
  let w' := snd (run (updateReportStatus id status notes) eng
                   {| app := st; db := d; trace := tr |}) in
  Forall2 same_routing (reports st) (reports (app w'))
  ∧ db w' = snd (updateReportInDb eng id (status_update status notes) d)
  ∧ ∀ k, option_Forall2 same_routing
           (Idb.get STORE_REPORTS_keyPath k (DbService.reports d))
           (Idb.get STORE_REPORTS_keyPath k (DbService.reports (db w'))).
Proof.
  intros w'. subst w'. rewrite run_updateReportStatus.
  assert (∀ o d', app (snd (after_write id status notes st tr o d'))
                  = set_reports (rewrite_status id status notes <$> reports st) st
                  ∧ db (snd (after_write id status notes st tr o d')) = d')
    as Hafter by (by intros [] d').
  destruct (Hafter (fst (updateReportInDb eng id (status_update status notes) d))
              (snd (updateReportInDb eng id (status_update status notes) d)))
    as [-> ->].
  split; [|split; [done|]].
  - eapply Forall2_impl; [apply rewrite_status_all|].
    apply rewritten_same_routing.
  - intros k. apply updateReportInDb_keeps_routing.
Qed.

(** ** What the reads return *)

Section Reads.

Lemma doctor_profile_dom (doc : obj) :
  dom (doctor_profile doc)
  = ({[ "uid"; "name"; "email"; "role"; "specialization" ]} : gset string).
Proof.
  unfold doctor_profile. rewrite dom_list_to_map_L. reflexivity.
Qed.

End Reads.

(** C10. No read hands out the stored password: every profile that
    [fetchAvailableDoctors] resolves to has the properties [uid], [name],
    [email], [role] and [specialization] and no other, and the user
    object that [loginUser] resolves to has no property [password]. *)
Theorem reads_hide_password (eng : engine) (db : DB) :
  (∀ l, fetchAvailableDoctors eng db = Resolved l →
        Forall (λ p : obj,
                  dom p = {[ "uid"; "name"; "email"; "role"; "specialization" ]}
                  ∧ p !! "password" = None) l)
  ∧ (∀ email pass r, loginUser eng email pass db = Resolved r →
        logged_user r !! "password" = None).
Proof.
  split.
  - intros l Hl. unfold fetchAvailableDoctors, read_request in Hl.
    assert (∃ docs : list obj, l = doctor_profile <$> docs) as [docs ->].
    { destruct eng; simplify_eq; by eexists. }
    apply Forall_fmap, Forall_forall. intros doc _. unfold compose. split.
    + apply doctor_profile_dom.
    + unfold doctor_profile. cbn [list_to_map foldr uncurry].
      rewrite !lookup_insert_ne by done. apply lookup_empty.
  - intros email pass r Hr. unfold loginUser in Hr.
    destruct (read_request eng _) as [[user|]|e|]; try discriminate.
    destruct (bool_decide _); [discriminate|].
    injection Hr as <-. cbn [logged_user].
    rewrite !lookup_insert_ne by done. apply lookup_empty.
Qed.

Lemma reads_hide_password_witness :
  (∃ l, fetchAvailableDoctors Healthy Sample.sample_db = Resolved l
      ∧ l ≠ []
      ∧ Forall (λ p : obj,
                  dom p = {[ "uid"; "name"; "email"; "role"; "specialization" ]}
                  ∧ p !! "password" = None) l)
  ∧ (∃ r, loginUser Healthy "a@x.com" "pw1" Sample.sample_db = Resolved r
        ∧ logged_user r !! "password" = None).
Proof.
  destruct (reads_hide_password Healthy Sample.sample_db) as [Hdoctors Hlogin].
  split; eexists; (split; [reflexivity|]).
  - split; [discriminate|]. apply Hdoctors. reflexivity.
  - apply (Hlogin "a@x.com" "pw1"). reflexivity.
Defined.

(** ** The stamp [updatedAt] *)

Section Stamp.

(** [saveReportToDb] stamps the record it writes. *)
Lemma saveReportToDb_stamps (eng : engine) (iso : string) (report : obj)
    (d d' : DB) :
  saveReportToDb eng iso report d = (Resolved tt, d') →
  ∃ k, key_at STORE_REPORTS_keyPath report = Some k
     ∧ Idb.get STORE_REPORTS_keyPath k (DbService.reports d')
       = Some (<["updatedAt" := VStr iso]> report)
     ∧ users d' = users d.
Proof.
  unfold saveReportToDb, performTransaction, put.
  assert (key_at STORE_REPORTS_keyPath (<["updatedAt" := VStr iso]> report)
          = key_at STORE_REPORTS_keyPath report) as Hkey.
  { unfold key_at. by rewrite field_insert_ne. }
  rewrite Hkey.
  destruct (key_at STORE_REPORTS_keyPath report) as [k|] eqn:Hk;
    [|destruct eng; discriminate].
  cbn [existsb STORE_REPORTS_unique].
  destruct eng; cbn [write_request]; intros [= <-];
    (exists k; split; [done|]; split; [|done]);
    cbn [DbService.reports]; apply get_place_eq; by rewrite Hkey.
Qed.

End Stamp.

(** C7, at the report that a status update reaches. After
    [saveReportToDb] stamped a report with the time [iso] of the save, a
    successful [updateReportInDb] (here the one [updateReportStatus]
    issues, at whatever later time) leaves [updatedAt] at [iso]: the
    update writes the new status but no stamp of its own. *)
Theorem updateReportInDb_leaves_updatedAt (iso : string) (report : obj)
    (id : string) (status : value) (notes : option string) (d d1 : DB) :
  field report "id" = VStr id →
  saveReportToDb Healthy iso report d = (Resolved tt, d1) →
  ∃ d2 r,
    updateReportInDb Healthy id (status_update status notes) d1
    = (Resolved tt, d2)
    ∧ Idb.get STORE_REPORTS_keyPath (KStr id) (DbService.reports d2) = Some r
    ∧ r !! "status" = Some status
    ∧ r !! "updatedAt" = Some (VStr iso).
Proof.
  intros Hid Hsave.
  apply saveReportToDb_stamps in Hsave as (k & Hk & Hget & _).
  apply key_at_str in Hid. unfold STORE_REPORTS_keyPath in Hk.
  rewrite Hid in Hk. injection Hk as <-.
  destruct (merge_update_stored STORE_REPORTS_keyPath STORE_REPORTS_unique
              "Report not found" id (status_update status notes) _
              (DbService.reports d1) Hget
              (status_update_keeps_key id status notes) eq_refl)
    as (Hrun & r & Hr & Hupd & Hkeep & _).
  eexists _, r. unfold updateReportInDb. rewrite Hrun.
  split; [done|]. split; [done|]. split.
  - apply Hupd. unfold status_update. by rewrite lookup_insert_eq.
  - rewrite Hkeep; [by rewrite lookup_insert_eq|].
    unfold status_update. rewrite lookup_insert_ne by done.
    by rewrite lookup_singleton_ne.
Qed.

Lemma updateReportInDb_leaves_updatedAt_witness :
  let report : obj :=
    list_to_map [ ("id", VStr "r9"); ("userId", VStr "u1");
                  ("targetDoctorId", VStr "u2"); ("timestamp", VNum 300);
                  ("status", VStr "pending") ] in
  ∃ d1 d2 r,
    saveReportToDb Healthy "2024-02-01T10:00:00.000Z" report Sample.sample_db
    = (Resolved tt, d1)
    ∧ updateReportInDb Healthy "r9"
        (status_update (VStr "reviewed") (Some "Looks fine")) d1
      = (Resolved tt, d2)
    ∧ Idb.get STORE_REPORTS_keyPath (KStr "r9") (DbService.reports d2) = Some r
    ∧ r !! "status" = Some (VStr "reviewed")
    ∧ r !! "updatedAt" = Some (VStr "2024-02-01T10:00:00.000Z").
Proof.
  intros report.
  destruct (updateReportInDb_leaves_updatedAt "2024-02-01T10:00:00.000Z"
              report "r9" (VStr "reviewed") (Some "Looks fine")
              Sample.sample_db
              (snd (saveReportToDb Healthy "2024-02-01T10:00:00.000Z" report
                      Sample.sample_db))
              eq_refl eq_refl) as (d2 & r & H).
  eexists _, d2, r. split; [reflexivity|exact H].
Defined.

(** ** The invariants of the database are kept by every service *)

Section Invariants.

Lemma ascii_compare_trans (a b c : Ascii.ascii) :
  Ascii.compare a b = Lt → Ascii.compare b c = Lt → Ascii.compare a c = Lt.
Proof.
  unfold Ascii.compare. rewrite !N.compare_lt_iff. apply N.lt_trans.
Qed.

Lemma string_compare_trans (s t u : string) :
  String.compare s t = Lt → String.compare t u = Lt → String.compare s u = Lt.
Proof.
  revert t u. induction s as [|a s IH]; intros [|b t] [|c u]; simpl; try done.
  destruct (Ascii.compare a b) eqn:Hab; try done;
    destruct (Ascii.compare b c) eqn:Hbc; try done.
  - apply Ascii.compare_eq_iff in Hab as ->.
    apply Ascii.compare_eq_iff in Hbc as ->.
    unfold Ascii.compare at 1. rewrite N.compare_refl. apply IH.
  - apply Ascii.compare_eq_iff in Hab as ->. by rewrite Hbc.
  - apply Ascii.compare_eq_iff in Hbc as <-. by rewrite Hab.
  - by rewrite (ascii_compare_trans _ _ _ Hab Hbc).
Qed.

Lemma key_compare_trans (a b c : key) :
  key_compare a b = Lt → key_compare b c = Lt → key_compare a c = Lt.
Proof.
  destruct a, b, c; simpl; try done.
  - rewrite !Z.compare_lt_iff. apply Z.lt_trans.
  - apply string_compare_trans.
Qed.

Lemma key_compare_Gt (a b : key) :
  key_compare a b = Gt → key_compare b a = Lt.
Proof.
  destruct a, b; simpl; try done.
  - by rewrite Z.compare_antisym; destruct (Z.compare _ _).
  - by rewrite String.compare_antisym; destruct (String.compare _ _).
Qed.

Variable path : string.

Lemma key_lt_at_trans (x y z : obj) :
  key_lt_at path x y → key_lt_at path y z → key_lt_at path x z.
Proof.
  intros (kx & ky & Hx & Hy & Hxy) (ky' & kz & Hy' & Hz & Hyz).
  simplify_eq. exists kx, kz. eauto using key_compare_trans.
Qed.

(** Placing a record keeps the keys ascending. *)
Lemma place_ascending (k : key) (r : obj) (s : store) :
  key_at path r = Some k → ascending path s →
  ascending path (place path k r s).
Proof.
  intros Hr [Hvalid Hsorted]. split.
  - apply Forall_forall. intros x [->|Hx]%elem_of_place; [by eexists|].
    rewrite Forall_forall in Hvalid. by apply Hvalid.
  - induction Hsorted as [|x s Hs IH Hx]; cbn [place].
    + repeat constructor.
    + apply Forall_cons in Hvalid as [[kx Hkx] Hvalid]. rewrite Hkx.
      destruct (key_compare k kx) eqn:Hc.
      * apply key_compare_Eq in Hc as <-. constructor; [done|].
        eapply Forall_impl; [exact Hx|].
        intros z (kx' & kz & Hkx' & Hkz & Hlt). simplify_eq.
        by exists k, kz.
      * assert (key_lt_at path r x) as Hrx by (by exists k, kx).
        constructor; [by constructor|]. constructor; [done|].
        eapply Forall_impl; [exact Hx|]. intros z. by apply key_lt_at_trans.
      * constructor; [by apply IH|].
        apply Forall_forall. intros z [->|Hz]%elem_of_place.
        -- exists kx, k. eauto using key_compare_Gt.
        -- rewrite Forall_forall in Hx. by apply Hx.
Qed.

Lemma clashes_false_inv (upath : string) (k : key) (r x : obj) (s : store) :
  clashes path upath k r s = false →
  x ∈ s → is_Some (key_at upath r) → key_at upath x = key_at upath r →
  key_at path x = Some k.
Proof.
  intros Hc Hin Hsome Heq.
  destruct (decide (key_at path x = Some k)) as [|Hne]; [done|].
  by rewrite (clashes_true path upath k r x s Hin Hsome Heq Hne) in Hc.
Qed.

(** Placing a record that clashes with none keeps a unique index unique. *)
Lemma place_unique (upath : string) (k : key) (r : obj) (s : store) :
  key_at path r = Some k → clashes path upath k r s = false →
  unique_index path upath s →
  unique_index path upath (place path k r s).
Proof.
  intros Hr Hc Hu y z [->|Hy]%elem_of_place [->|Hz]%elem_of_place Hsome Heq.
  - done.
  - rewrite Hr. symmetry. by apply (clashes_false_inv upath k r z s).
  - rewrite Hr. apply (clashes_false_inv upath k r y s); try done.
    by rewrite <- Heq.
  - by apply Hu.
Qed.

End Invariants.

Section Services.

(** A transaction leaves the store as it was or as its request stored it. *)
Lemma performTransaction_cases (eng : engine) (w : written) (s : store) :
  snd (performTransaction eng w s) = s
  ∨ w = Stored (snd (performTransaction eng w s)).
Proof.
  unfold performTransaction.
  destruct eng, w; cbn; auto.
Qed.

Lemma merge_update_cases (eng : engine) (path : string) (uniq : list string)
    (missing k : string) (updates : obj) (s : store) :
  snd (merge_update eng path uniq missing k updates s) = s
  ∨ ∃ data, put path uniq (spread data updates) s
            = Stored (snd (merge_update eng path uniq missing k updates s)).
Proof.
  unfold merge_update.
  destruct (Idb.get path (KStr k) s) as [data|]; [|destruct eng; auto].
  destruct (put path uniq (spread data updates) s) as [s'| |] eqn:Hput;
    destruct eng; cbn; eauto.
Qed.

Lemma put_ascending (path : string) (uniq : list string) (r : obj)
    (s s' : store) :
  ascending path s → put path uniq r s = Stored s' → ascending path s'.
Proof.
  intros Hs. unfold put. destruct (key_at path r) as [k|] eqn:Hk; [|done].
  destruct (existsb _ uniq); [done|]. intros [= <-]. by apply place_ascending.
Qed.

Lemma add_ascending (path : string) (uniq : list string) (r : obj)
    (s s' : store) :
  ascending path s → add path uniq r s = Stored s' → ascending path s'.
Proof.
  intros Hs. unfold add. destruct (key_at path r) as [k|] eqn:Hk; [|done].
  destruct (_ || _); [done|]. intros [= <-]. by apply place_ascending.
Qed.

Lemma put_users_unique (r : obj) (s s' : store) :
  unique_index STORE_USERS_keyPath "email" s →
  put STORE_USERS_keyPath STORE_USERS_unique r s = Stored s' →
  unique_index STORE_USERS_keyPath "email" s'.
Proof.
  intros Hs. unfold put.
  destruct (key_at STORE_USERS_keyPath r) as [k|] eqn:Hk; [|done].
  cbn [existsb STORE_USERS_unique]. rewrite orb_false_r.
  destruct (clashes _ _ _ _ _) eqn:Hc; [done|]. intros [= <-].
  by apply place_unique.
Qed.

Lemma add_users_unique (r : obj) (s s' : store) :
  unique_index STORE_USERS_keyPath "email" s →
  add STORE_USERS_keyPath STORE_USERS_unique r s = Stored s' →
  unique_index STORE_USERS_keyPath "email" s'.
Proof.
  intros Hs. unfold add.
  destruct (key_at STORE_USERS_keyPath r) as [k|] eqn:Hk; [|done].
  cbn [existsb STORE_USERS_unique]. rewrite orb_false_r.
  destruct (bool_decide _); [done|]. cbn [orb].
  destruct (clashes _ _ _ _ _) eqn:Hc; [done|]. intros [= <-].
  by apply place_unique.
Qed.

Lemma empty_db_ok : db_ok empty_db.
Proof.
  repeat split; try constructor. intros x y Hx. by apply elem_of_nil in Hx.
Qed.

Lemma registerUser_ok (eng : engine) (now : N) (iso rnd email pass name : string)
    (role : UserRole) (specialization : option string) (d : DB) :
  db_ok d →
  db_ok (snd (registerUser eng now iso rnd email pass name role
                specialization d)).
Proof.
  intros [[Hasc Huniq] Hreports]. unfold registerUser.
  destruct (read_request eng _) as [[existing|]|e|]; try done.
  destruct (performTransaction_cases eng
              (add STORE_USERS_keyPath STORE_USERS_unique
                 (newUser now iso rnd email pass name role specialization)
                 (users d))
              (users d)) as [Hsame|Hadd];
    destruct (performTransaction eng _ (users d)) as [[[]|e|] us];
    cbn [snd] in *; try done.
  - subst us. by destruct d.
  - split; [|done]. split; cbn [users].
    + eapply add_ascending; [exact Hasc|exact Hadd].
    + eapply add_users_unique; [exact Huniq|exact Hadd].
Qed.

Lemma updateUserInDb_ok (eng : engine) (uid : string) (updates : obj) (d : DB) :
  db_ok d → db_ok (snd (updateUserInDb eng uid updates d)).
Proof.
  intros [[Hasc Huniq] Hreports]. unfold updateUserInDb.
  destruct (merge_update_cases eng STORE_USERS_keyPath STORE_USERS_unique
              "User not found" uid updates (users d)) as [Hsame|[data Hput]];
    destruct (merge_update eng _ _ _ uid updates (users d)) as [o us];
    cbn [snd] in *.
  - subst us. by destruct d.
  - split; [|done]. split; cbn [users].
    + eapply put_ascending; [exact Hasc|exact Hput].
    + eapply put_users_unique; [exact Huniq|exact Hput].
Qed.

Lemma saveReportToDb_ok (eng : engine) (iso : string) (report : obj) (d : DB) :
  db_ok d → db_ok (snd (saveReportToDb eng iso report d)).
Proof.
  intros [Husers Hreports]. unfold saveReportToDb.
  destruct (performTransaction_cases eng
              (put STORE_REPORTS_keyPath STORE_REPORTS_unique
                 (<["updatedAt" := VStr iso]> report) (DbService.reports d))
              (DbService.reports d)) as [Hsame|Hput];
    destruct (performTransaction eng _ (DbService.reports d)) as [o rs];
    cbn [snd] in *.
  - subst rs. by destruct d.
  - split; [done|]. eapply put_ascending; [exact Hreports|exact Hput].
Qed.

Lemma updateReportInDb_ok (eng : engine) (id : string) (updates : obj) (d : DB) :
  db_ok d → db_ok (snd (updateReportInDb eng id updates d)).
Proof.
  intros [Husers Hreports]. unfold updateReportInDb.
  destruct (merge_update_cases eng STORE_REPORTS_keyPath STORE_REPORTS_unique
              "Report not found" id updates (DbService.reports d))
    as [Hsame|[data Hput]];
    destruct (merge_update eng _ _ _ id updates (DbService.reports d)) as [o rs];
    cbn [snd] in *.
  - subst rs. by destruct d.
  - split; [done|]. eapply put_ascending; [exact Hreports|exact Hput].
Qed.

(** The actions of the store reach the database only through the
    services: a run keeps the invariants. *)
Lemma perform_ok {R : Type} (c : call R) (eng : engine) (d : DB) :
  db_ok d → db_ok (snd (perform c eng d)).
Proof.
  intros Hd. destruct c; cbn [perform snd]; try done.
  - by apply updateReportInDb_ok.
  - by apply updateUserInDb_ok.
Qed.

Lemma run_ok {A : Type} (t : task A) (eng : engine) (w : world) :
  db_ok (db w) → db_ok (db (snd (run t eng w))).
Proof.
  revert w. induction t as [a|e|k IH|f k IH|m e k IH|R c k IHk h IHh];
    intros w Hw; cbn [run]; try done.
  - by apply IH.
  - by apply IH.
  - by apply IH.
  - pose proof (perform_ok c eng (db w) Hw) as Hd.
    destruct (perform c eng (db w)) as [[r|e|] d']; cbn [snd] in *.
    + by apply IHk.
    + by apply IHh.
    + done.
Qed.

End Services.

(** ** Two registrations, and the scenario of the specification *)

Section Scenario.

Lemma newUser_email (now : N) (iso rnd email pass name : string)
    (role : UserRole) (specialization : option string) :
  field (newUser now iso rnd email pass name role specialization) "email"
  = VStr email.
Proof. reflexivity. Qed.

(** X19. After a registration went through, a second one with the same
    email, whatever its other arguments, is rejected by the existence
    check, and the store holds one user with that email, the first. *)
Lemma registerUser_twice (eng : engine) (now now' : N)
    (iso iso' rnd rnd' email pass pass' name name' : string)
    (role role' : UserRole) (spec spec' : option string)
    (d d1 : DB) (r : Registered) :
  db_ok d →
  registerUser eng now iso rnd email pass name role spec d = (Resolved r, d1) →
  registerUser Healthy now' iso' rnd' email pass' name' role' spec' d1
  = (Rejected (JsError "User with this email already exists."), d1)
  ∧ index_getAll "email" (KStr email) (users d1)
    = [newUser now iso rnd email pass name role spec].
Proof.
  intros Hd Hfirst.
  pose proof (registerUser_ok eng now iso rnd email pass name role spec d Hd)
    as [Hok _].
  rewrite Hfirst in Hok. cbn [snd] in Hok.
  assert (newUser now iso rnd email pass name role spec ∈ users d1) as Hin.
  { unfold registerUser in Hfirst.
    destruct (read_request eng _) as [[existing|]|e|]; try done.
    unfold performTransaction, add in Hfirst. cbn [key_at] in Hfirst.
    destruct (key_at STORE_USERS_keyPath _) as [k|];
      [|destruct eng; discriminate].
    destruct (_ || _); [destruct eng; discriminate|].
    destruct eng; cbn [write_request] in Hfirst; try discriminate;
      injection Hfirst as _ <-; apply place_has. }
  pose proof (index_getAll_unique _ _ _ Hok Hin
                (newUser_email now iso rnd email pass name role spec)) as Hall.
  split; [|done]. unfold registerUser, index_get. by rewrite Hall.
Qed.

(** The end-to-end scenario: a doctor and a patient register, the patient
    saves a report routed to the doctor, the doctor's session loads
    exactly that report, marks it reviewed, and a fresh fetch shows the
    new status and notes. *)
Example scenario :
  let doctor := "user_1000k3j9x0q2a" in
  let patient := "user_2000b7m1z4w8c" in
  let R : obj :=
    list_to_map [ ("id", VStr "r1"); ("userId", VStr patient);
                  ("targetDoctorId", VStr doctor); ("timestamp", VNum 100);
                  ("status", VStr "pending") ] in
  let stored := <["updatedAt" := VStr "1970-01-01T00:00:03.000Z"]> R in
  let d1 := snd (registerUser Healthy 1000 "1970-01-01T00:00:01.000Z"
                   "k3j9x0q2a" "d@x.com" "pw-d" "D" DOCTOR (Some "Cardiology")
                   empty_db) in
  let d2 := snd (registerUser Healthy 2000 "1970-01-01T00:00:02.000Z"
                   "b7m1z4w8c" "p@x.com" "pw-p" "P" PATIENT None d1) in
  let d3 := snd (saveReportToDb Healthy "1970-01-01T00:00:03.000Z" R d2) in
  let w3 := {| app := Sample.session DOCTOR (Some doctor) []; db := d3;
               trace := [] |} in
  let w4 := snd (run loadReports Healthy w3) in
  let w5 := snd (run (updateReportStatus "r1" (VStr "reviewed")
                        (Some "Looks fine")) Healthy w4) in
  length (users d2) = 2
  ∧ reports (app w4) = [stored]
  ∧ isLoading (app w4) = false
  ∧ fetchReportsForSpecificDoctor Healthy doctor (db w5)
    = Resolved [spread stored (status_update (VStr "reviewed")
                                 (Some "Looks fine"))]
  ∧ reports (app w5)
    = [spread stored (status_update (VStr "reviewed") (Some "Looks fine"))].
Proof.
  intros doctor patient R stored d1 d2 d3 w3 w4 w5.
  repeat split; vm_compute; reflexivity.
Qed.

End Scenario.

(** * Further properties of the services and of the store *)

(** ** Registration and login *)

Section Accounts.

Lemma filter_nil_none (P : obj → Prop) `{∀ x, Decision (P x)} (s : store) :
  filter P s = [] → ∀ x, x ∈ s → ¬ P x.
Proof. intros Hnil x Hx HP. by apply (filter_nil_not_elem_of P s x). Qed.

(** Placing a record under a key the store does not have adds it. *)
Lemma place_fresh_length (path : string) (k : key) (r : obj) (s : store) :
  Idb.get path k s = None → length (place path k r s) = S (length s).
Proof.
  induction s as [|x s IH]; cbn [place]; [done|].
  rewrite get_cons. case_bool_decide as Hx; [done|]. intros Hget.
  destruct (key_at path x) as [kx|] eqn:Hkx; [|cbn; by rewrite IH].
  destruct (key_compare k kx) eqn:Hc; [|done|cbn; by rewrite IH].
  apply key_compare_Eq in Hc as <-. congruence.
Qed.

Lemma filter_place_fresh (path : string) (P : obj → Prop)
    `{∀ x, Decision (P x)} (k : key) (r : obj) (s : store) :
  P r → (∀ x, x ∈ s → ¬ P x) → filter P (place path k r s) = [r].
Proof.
  intros Pr. induction s as [|x s IH]; intros Hs; cbn [place].
  - by rewrite filter_cons_True.
  - assert (¬ P x) as Hx by apply Hs, list_elem_of_here.
    assert (∀ y, y ∈ s → ¬ P y) as Hs'
      by (intros y Hy; by apply Hs, list_elem_of_further).
    assert (filter P (x :: place path k r s) = [r]) as Hrec
      by (rewrite filter_cons_False by done; by apply IH).
    destruct (key_at path x) as [kx|]; [|done].
    destruct (key_compare k kx); [| |done].
    + rewrite filter_cons_True by done. f_equal. by apply filter_none.
    + rewrite filter_cons_True by done. f_equal. by apply filter_none.
Qed.

Lemma newUser_id (now : N) (iso rnd email pass name : string)
    (role : UserRole) (specialization : option string) :
  field (newUser now iso rnd email pass name role specialization) "_id"
  = VStr ("user_" +:+ pretty now +:+ rnd).
Proof. reflexivity. Qed.

Lemma newUser_password (now : N) (iso rnd email pass name : string)
    (role : UserRole) (specialization : option string) :
  field (newUser now iso rnd email pass name role specialization) "password"
  = VStr pass.
Proof. reflexivity. Qed.

(** What a registration with an unused email and a fresh id does to the
    users store. *)
Lemma add_newUser (now : N) (iso rnd email pass name : string)
    (role : UserRole) (specialization : option string) (us : store) :
  let u := newUser now iso rnd email pass name role specialization in
  let k := KStr ("user_" +:+ pretty now +:+ rnd) in
  (∀ x, x ∈ us → field x "email" ≠ VStr email) →
  Idb.get STORE_USERS_keyPath k us = None →
  index_get "email" (KStr email) us = None
  ∧ add STORE_USERS_keyPath STORE_USERS_unique u us
    = Stored (place STORE_USERS_keyPath k u us)
  ∧ index_getAll "email" (KStr email) (place STORE_USERS_keyPath k u us) = [u].
Proof.
  intros u k Hemail Hfresh.
  assert (∀ x, x ∈ us → ¬ key_at "email" x = Some (KStr email)) as Hnone.
  { intros x Hx Hk. apply key_at_str in Hk. by apply (Hemail x). }
  assert (key_at STORE_USERS_keyPath u = Some k) as Hk by reflexivity.
  assert (key_at "email" u = Some (KStr email)) as He by reflexivity.
  split; [|split].
  - unfold index_get, index_getAll. by rewrite filter_none.
  - unfold add. rewrite Hk, Hfresh.
    cbn [existsb STORE_USERS_unique]. rewrite orb_false_r.
    rewrite clashes_false; [done|].
    intros x Hx _ Hsame. rewrite He in Hsame. by destruct (Hnone x Hx).
  - unfold index_getAll. by apply filter_place_fresh.
Qed.

End Accounts.

(** X1. With a healthy engine, an email no stored user has and a fresh
    generated id, [registerUser] resolves to the new user with [uid] set
    to the [_id] and the role of the call, the password still among the
    properties of the returned user; the store has the new record under
    its id and one record more than before, every other key reads as
    before, and the reports are untouched. *)
Theorem registerUser_fresh (now : N) (iso rnd email pass name : string)
    (role : UserRole) (specialization : option string) (d : DB) :
  let u := newUser now iso rnd email pass name role specialization in
  let id := "user_" +:+ pretty now +:+ rnd in
  (∀ x, x ∈ users d → field x "email" ≠ VStr email) →
  Idb.get STORE_USERS_keyPath (KStr id) (users d) = None →
  ∃ d', registerUser Healthy now iso rnd email pass name role specialization d
        = (Resolved {| registered_user := <["uid" := VStr id]> u;
                       registered_role := role_value role |}, d')
      ∧ field (<["uid" := VStr id]> u) "password" = VStr pass
      ∧ Idb.get STORE_USERS_keyPath (KStr id) (users d') = Some u
      ∧ (∀ k, k ≠ KStr id → Idb.get STORE_USERS_keyPath k (users d')
                            = Idb.get STORE_USERS_keyPath k (users d))
      ∧ length (users d') = S (length (users d))
      ∧ DbService.reports d' = DbService.reports d.
Proof.
  intros u id Hemail Hfresh.
  destruct (add_newUser now iso rnd email pass name role specialization
              (users d) Hemail Hfresh) as (Hcheck & Hadd & _).
  eexists. split.
  - unfold registerUser, read_request, performTransaction.
    rewrite Hcheck, Hadd. cbn [write_request]. reflexivity.
  - cbn [users DbService.reports]. split; [reflexivity|].
    split; [by apply get_place_eq|]. split; [|split; [|done]].
    + intros k Hk. by apply get_place_ne.
    + by apply place_fresh_length.
Qed.

Lemma registerUser_fresh_witness :
  ∃ d', registerUser Healthy 1700000000000 "2023-11-14T22:13:20.000Z"
          "k3j9x0q2a" "new@x.com" "pw3" "Carol" DOCTOR (Some "Surgery")
          Sample.sample_db
        = (Resolved
             {| registered_user :=
                  <["uid" := VStr "user_1700000000000k3j9x0q2a"]>
                    (newUser 1700000000000 "2023-11-14T22:13:20.000Z"
                       "k3j9x0q2a" "new@x.com" "pw3" "Carol" DOCTOR
                       (Some "Surgery"));
                registered_role := VStr "DOCTOR" |}, d')
      ∧ length (users d') = 3.
Proof.
  destruct (registerUser_fresh 1700000000000 "2023-11-14T22:13:20.000Z"
              "k3j9x0q2a" "new@x.com" "pw3" "Carol" DOCTOR (Some "Surgery")
              Sample.sample_db) as (d' & Hrun & _ & _ & _ & Hlen & _).
  - intros x Hx. cbn in Hx. rewrite !elem_of_cons, elem_of_nil in Hx.
    destruct Hx as [->|[->|[]]]; discriminate.
  - reflexivity.
  - exists d'. split; [exact Hrun|exact Hlen].
Defined.

(** X2. Round trip of registration and login: after a registration went
    through (healthy engine, unused email, fresh id), [loginUser] with
    the same email and password resolves to the profile of the new user
    ([uid] is the generated id; name, role and specialization are those
    of the registration), and with any other password it is rejected. *)
Theorem register_then_login (now : N) (iso rnd email pass name : string)
    (role : UserRole) (specialization : option string) (d : DB) :
  let id := "user_" +:+ pretty now +:+ rnd in
  let d' := snd (registerUser Healthy now iso rnd email pass name role
                   specialization d) in
  (∀ x, x ∈ users d → field x "email" ≠ VStr email) →
  Idb.get STORE_USERS_keyPath (KStr id) (users d) = None →
  (∃ r, loginUser Healthy email pass d' = Resolved r
      ∧ logged_user r !! "uid" = Some (VStr id)
      ∧ logged_user r !! "email" = Some (VStr email)
      ∧ logged_user r !! "name" = Some (VStr name)
      ∧ logged_user r !! "role" = Some (role_value role)
      ∧ logged_user r !! "specialization"
        = Some (VStr (or_default specialization ""))
      ∧ logged_role r = role_value role
      ∧ logged_name r = VStr name)
  ∧ ∀ pass', pass' ≠ pass →
      loginUser Healthy email pass' d'
      = Rejected (JsError "Invalid email or password.").
Proof.
  intros id d' Hemail Hfresh. subst id.
  destruct (add_newUser now iso rnd email pass name role specialization
              (users d) Hemail Hfresh) as (Hcheck & Hadd & Hone).
  cbn zeta in Hcheck, Hadd, Hone.
  assert (users d' = place STORE_USERS_keyPath
                       (KStr ("user_" +:+ pretty now +:+ rnd))
                       (newUser now iso rnd email pass name role specialization)
                       (users d)) as Hd'.
  { subst d'. unfold registerUser, read_request, performTransaction.
    by rewrite Hcheck, Hadd. }
  split.
  - eexists. split.
    + unfold loginUser, read_request, index_get. rewrite Hd', Hone.
      cbn [head]. rewrite newUser_password.
      rewrite bool_decide_eq_false_2 by (by intros []). reflexivity.
    + cbn [logged_user logged_role logged_name]. repeat split.
  - intros pass' Hne. unfold loginUser, read_request, index_get.
    rewrite Hd', Hone. cbn [head]. rewrite newUser_password.
    rewrite bool_decide_eq_true_2; [done|]. congruence.
Qed.

Lemma register_then_login_witness :
  let d' := snd (registerUser Healthy 1700000000000 "2023-11-14T22:13:20.000Z"
                   "k3j9x0q2a" "new@x.com" "pw3" "Carol" DOCTOR
                   (Some "Surgery") Sample.sample_db) in
  (∃ r, loginUser Healthy "new@x.com" "pw3" d' = Resolved r
      ∧ logged_user r !! "uid" = Some (VStr "user_1700000000000k3j9x0q2a")
      ∧ logged_name r = VStr "Carol")
  ∧ loginUser Healthy "new@x.com" "pw4" d'
    = Rejected (JsError "Invalid email or password.").
Proof.
  intros d'.
  destruct (register_then_login 1700000000000 "2023-11-14T22:13:20.000Z"
              "k3j9x0q2a" "new@x.com" "pw3" "Carol" DOCTOR (Some "Surgery")
              Sample.sample_db) as [(r & Hr & Huid & _ & _ & _ & _ & _ & Hname) Hbad].
  - intros x Hx. cbn in Hx. rewrite !elem_of_cons, elem_of_nil in Hx.
    destruct Hx as [->|[->|[]]]; discriminate.
  - reflexivity.
  - split; [by exists r|]. apply Hbad. discriminate.
Defined.

(** X3. [loginUser] resolves only on stored credentials: the profile it
    resolves to is that of a stored user who has the email and the
    password of the call. With a healthy engine, when no stored user with
    the email has the password (the email is unknown, or the password is
    wrong), it is rejected, with the same error in both cases. *)
Theorem loginUser_credentials (eng : engine) (email pass : string) (d : DB) :
  (∀ r, loginUser eng email pass d = Resolved r →
        ∃ u, u ∈ users d
           ∧ field u "email" = VStr email
           ∧ field u "password" = VStr pass
           ∧ logged_user r !! "uid" = Some (field u "_id")
           ∧ logged_role r = field u "role"
           ∧ logged_name r = field u "name")
  ∧ ((∀ u, u ∈ users d → field u "email" = VStr email →
           field u "password" ≠ VStr pass) →
     loginUser Healthy email pass d
     = Rejected (JsError "Invalid email or password.")).
Proof.
  split.
  - intros r Hr. unfold loginUser in Hr.
    destruct (index_get "email" (KStr email) (users d)) as [u|] eqn:Hget;
      [|destruct eng; discriminate].
    assert (u ∈ users d ∧ field u "email" = VStr email) as [Hin Hemail].
    { unfold index_get in Hget. apply head_Some in Hget as [l' Hl].
      assert (u ∈ index_getAll "email" (KStr email) (users d)) as Hu
        by (rewrite Hl; apply list_elem_of_here).
      apply list_elem_of_filter in Hu as [Hk Hu]. by apply key_at_str in Hk. }
    destruct eng; cbn [read_request] in Hr; try discriminate;
      (case_bool_decide as Hpw; [discriminate|]);
      injection Hr as <-; exists u; cbn [logged_user logged_role logged_name];
      (repeat split; try done);
      by destruct (decide (field u "password" = VStr pass)).
  - intros Hbad. unfold loginUser, read_request.
    destruct (index_get "email" (KStr email) (users d)) as [u|] eqn:Hget;
      [|done].
    unfold index_get in Hget. apply head_Some in Hget as [l' Hl].
    assert (u ∈ index_getAll "email" (KStr email) (users d)) as Hu
      by (rewrite Hl; apply list_elem_of_here).
    apply list_elem_of_filter in Hu as [Hk Hu]. apply key_at_str in Hk.
    by rewrite bool_decide_eq_true_2 by (by apply Hbad).
Qed.

Lemma loginUser_credentials_witness :
  loginUser Healthy "a@x.com" "wrong" Sample.sample_db
  = Rejected (JsError "Invalid email or password.")
  ∧ loginUser Healthy "nobody@x.com" "pw1" Sample.sample_db
    = Rejected (JsError "Invalid email or password.")
  ∧ ∃ u, u ∈ users Sample.sample_db ∧ field u "password" = VStr "pw1"
       ∧ field u "email" = VStr "a@x.com".
Proof.
  split; [|split].
  - apply (proj2 (loginUser_credentials Healthy "a@x.com" "wrong"
                    Sample.sample_db)).
    intros u Hu. cbn in Hu. rewrite !elem_of_cons, elem_of_nil in Hu.
    destruct Hu as [->|[->|[]]]; discriminate.
  - apply (proj2 (loginUser_credentials Healthy "nobody@x.com" "pw1"
                    Sample.sample_db)).
    intros u Hu. cbn in Hu. rewrite !elem_of_cons, elem_of_nil in Hu.
    destruct Hu as [->|[->|[]]]; discriminate.
  - destruct (proj1 (loginUser_credentials Healthy "a@x.com" "pw1"
                       Sample.sample_db) _ eq_refl)
      as (u & Hin & Hemail & Hpw & _).
    by exists u.
Defined.

(** X4. [registerUser] never changes or removes a stored user: whatever
    the arguments, the generated id and the behaviour of the engine, the
    record under every key that was in the users store is the same after
    the call, and the reports are untouched. *)
Theorem registerUser_never_overwrites (eng : engine) (now : N)
    (iso rnd email pass name : string) (role : UserRole)
    (specialization : option string) (d : DB) (k : key) (r : obj) :
  let d' := snd (registerUser eng now iso rnd email pass name role
                   specialization d) in
  Idb.get STORE_USERS_keyPath k (users d) = Some r →
  Idb.get STORE_USERS_keyPath k (users d') = Some r
  ∧ DbService.reports d' = DbService.reports d.
Proof.
  intros d' Hget. subst d'. unfold registerUser.
  destruct (read_request eng _) as [[existing|]|e|]; try done.
  destruct (performTransaction_cases eng
              (add STORE_USERS_keyPath STORE_USERS_unique
                 (newUser now iso rnd email pass name role specialization)
                 (users d))
              (users d)) as [Hsame|Hadd];
    destruct (performTransaction eng _ (users d)) as [[[]|e|] us];
    cbn [snd users DbService.reports] in *; try done.
  - by subst us.
  - split; [|done]. unfold add in Hadd.
    destruct (key_at STORE_USERS_keyPath _) as [k'|] eqn:Hk'; [|done].
    case_bool_decide as Hfresh; [done|]. cbn [orb] in Hadd.
    destruct (existsb _ _); [done|]. injection Hadd as <-.
    rewrite get_place_ne; [done|done|].
    intros ->. apply Hfresh. by eexists.
Qed.

Lemma registerUser_never_overwrites_witness :
  Idb.get STORE_USERS_keyPath (KStr "u1")
    (users (snd (registerUser Healthy 1700000000000 "2023-11-14T22:13:20.000Z"
                   "k3j9x0q2a" "new@x.com" "pw3" "Carol" DOCTOR
                   (Some "Surgery") Sample.sample_db)))
  = Some Sample.alice.
Proof.
  apply (registerUser_never_overwrites Healthy 1700000000000
           "2023-11-14T22:13:20.000Z" "k3j9x0q2a" "new@x.com" "pw3" "Carol"
           DOCTOR (Some "Surgery") Sample.sample_db (KStr "u1") Sample.alice).
  reflexivity.
Defined.

(** ** Writes *)

Section Writes.

Lemma performTransaction_unresolved (eng : engine) (w : written) (s : store) :
  (∀ u, fst (performTransaction eng w s) ≠ Resolved u) →
  snd (performTransaction eng w s) = s.
Proof.
  unfold performTransaction.
  destruct eng, w; cbn; try done; intros H; by destruct (H tt).
Qed.

Lemma merge_update_unresolved (eng : engine) (path : string)
    (uniq : list string) (missing k : string) (updates : obj) (s : store) :
  (∀ u, fst (merge_update eng path uniq missing k updates s) ≠ Resolved u) →
  snd (merge_update eng path uniq missing k updates s) = s.
Proof.
  unfold merge_update.
  destruct (Idb.get path (KStr k) s) as [data|]; [|by destruct eng].
  destruct (put path uniq (spread data updates) s);
    destruct eng; cbn; try done; intros H; by destruct (H tt).
Qed.

(** Placing twice under one key is placing the second record. *)
Lemma place_place (path : string) (k : key) (r1 r2 : obj) (s : store) :
  key_at path r1 = Some k →
  place path k r2 (place path k r1 s) = place path k r2 s.
Proof.
  intros Hr1. induction s as [|x s IH]; cbn [place].
  - by rewrite Hr1, key_compare_refl.
  - destruct (key_at path x) as [kx|] eqn:Hx.
    + destruct (key_compare k kx) eqn:Hc; cbn [place].
      * by rewrite Hr1, key_compare_refl.
      * by rewrite Hr1, key_compare_refl.
      * by rewrite Hx, Hc, IH.
    + cbn [place]. by rewrite Hx, IH.
Qed.

End Writes.

(** X5. A write that does not resolve writes nothing: when the promise of
    [registerUser], [updateUserInDb], [saveReportToDb] or
    [updateReportInDb] is rejected or never settles, the database is the
    one before the call. *)
Theorem unresolved_writes_nothing (eng : engine) (d : DB) :
  (∀ now iso rnd email pass name role specialization,
     (∀ r, fst (registerUser eng now iso rnd email pass name role
                  specialization d) ≠ Resolved r) →
     snd (registerUser eng now iso rnd email pass name role specialization d)
     = d)
  ∧ (∀ uid updates,
       (∀ u, fst (updateUserInDb eng uid updates d) ≠ Resolved u) →
       snd (updateUserInDb eng uid updates d) = d)
  ∧ (∀ iso report,
       (∀ u, fst (saveReportToDb eng iso report d) ≠ Resolved u) →
       snd (saveReportToDb eng iso report d) = d)
  ∧ (∀ id updates,
       (∀ u, fst (updateReportInDb eng id updates d) ≠ Resolved u) →
       snd (updateReportInDb eng id updates d) = d).
Proof.
  destruct d as [us rs]. split; [|split; [|split]].
  - intros now iso rnd email pass name role specialization.
    unfold registerUser. cbn [users DbService.reports].
    destruct (read_request eng _) as [[existing|]|e|]; try done.
    destruct (performTransaction eng _ us) as [[[]|e|] us']; cbn; try done.
    intros H. by destruct (H _ eq_refl).
  - intros uid updates. unfold updateUserInDb. cbn [users DbService.reports].
    pose proof (merge_update_unresolved eng STORE_USERS_keyPath
                  STORE_USERS_unique "User not found" uid updates us) as Hm.
    destruct (merge_update eng _ _ _ uid updates us) as [o us'].
    cbn in *. intros H. by rewrite Hm.
  - intros iso report. unfold saveReportToDb. cbn [users DbService.reports].
    pose proof (performTransaction_unresolved eng
                  (put STORE_REPORTS_keyPath STORE_REPORTS_unique
                     (<["updatedAt" := VStr iso]> report) rs) rs) as Hp.
    destruct (performTransaction eng _ rs) as [o rs'].
    cbn in *. intros H. by rewrite Hp.
  - intros id updates. unfold updateReportInDb. cbn [users DbService.reports].
    pose proof (merge_update_unresolved eng STORE_REPORTS_keyPath
                  STORE_REPORTS_unique "Report not found" id updates rs) as Hm.
    destruct (merge_update eng _ _ _ id updates rs) as [o rs'].
    cbn in *. intros H. by rewrite Hm.
Qed.

Lemma unresolved_writes_nothing_witness :
  snd (updateUserInDb Healthy "u1" {[ "email" := VStr "d@x.com" ]}
         Sample.sample_db) = Sample.sample_db
  ∧ snd (saveReportToDb (WriteFails "QuotaExceededError")
           "2024-02-01T10:00:00.000Z" Sample.report1 Sample.sample_db)
    = Sample.sample_db.
Proof.
  destruct (unresolved_writes_nothing Healthy Sample.sample_db)
    as (_ & Huser & _).
  destruct (unresolved_writes_nothing (WriteFails "QuotaExceededError")
              Sample.sample_db) as (_ & _ & Hsave & _).
  split.
  - apply Huser. intros u Hu. vm_compute in Hu. discriminate.
  - apply Hsave. intros u Hu. vm_compute in Hu. discriminate.
Defined.

Section Saves.

Lemma stamped_key (iso : string) (report : obj) :
  key_at STORE_REPORTS_keyPath (<["updatedAt" := VStr iso]> report)
  = key_at STORE_REPORTS_keyPath report.
Proof. unfold key_at. by rewrite field_insert_ne. Qed.

Lemma saveReportToDb_healthy (iso : string) (report : obj) (k : key) (d : DB) :
  key_at STORE_REPORTS_keyPath report = Some k →
  saveReportToDb Healthy iso report d
  = (Resolved tt,
     {| users := users d;
        DbService.reports :=
          place STORE_REPORTS_keyPath k (<["updatedAt" := VStr iso]> report)
            (DbService.reports d) |}).
Proof.
  intros Hk. unfold saveReportToDb, performTransaction, put.
  by rewrite stamped_key, Hk.
Qed.

End Saves.

(** X6. Round trip of [saveReportToDb]: with a healthy engine, a report
    that has a valid id is stored as given plus the stamp [updatedAt],
    replacing whole whatever record was under that id (nothing of an older
    record survives); reading the id back gives exactly that record, every
    other key reads as before, and the users are untouched. *)
Theorem saveReportToDb_round_trip (iso : string) (report : obj) (k : key)
    (d : DB) :
  key_at STORE_REPORTS_keyPath report = Some k →
  ∃ d', saveReportToDb Healthy iso report d = (Resolved tt, d')
      ∧ Idb.get STORE_REPORTS_keyPath k (DbService.reports d')
        = Some (<["updatedAt" := VStr iso]> report)
      ∧ (∀ k', k' ≠ k →
               Idb.get STORE_REPORTS_keyPath k' (DbService.reports d')
               = Idb.get STORE_REPORTS_keyPath k' (DbService.reports d))
      ∧ users d' = users d.
Proof.
  intros Hk. eexists. split; [by apply saveReportToDb_healthy|].
  cbn [users DbService.reports]. split; [|split; [|done]].
  - apply get_place_eq. by rewrite stamped_key.
  - intros k' Hne. apply get_place_ne; [|done]. by rewrite stamped_key.
Qed.

Lemma saveReportToDb_round_trip_witness :
  let report : obj :=
    list_to_map [ ("id", VStr "r1"); ("userId", VStr "u1");
                  ("targetDoctorId", VStr "u7"); ("timestamp", VNum 500) ] in
  ∃ d', saveReportToDb Healthy "2024-03-01T00:00:00.000Z" report
          Sample.sample_db = (Resolved tt, d')
      ∧ Idb.get STORE_REPORTS_keyPath (KStr "r1") (DbService.reports d')
        = Some (<["updatedAt" := VStr "2024-03-01T00:00:00.000Z"]> report).
Proof.
  intros report.
  destruct (saveReportToDb_round_trip "2024-03-01T00:00:00.000Z" report
              (KStr "r1") Sample.sample_db eq_refl) as (d' & Hrun & Hget & _).
  by exists d'.
Defined.

(** X7. A report without a valid key at [id] (the property is missing or
    [undefined]) cannot be saved: with a healthy engine [saveReportToDb]
    is rejected with the [DataError] that [put] throws, and under every
    engine the database stays as it was. *)
Theorem saveReportToDb_without_id (eng : engine) (iso : string) (report : obj)
    (d : DB) :
  key_at STORE_REPORTS_keyPath report = None →
  saveReportToDb Healthy iso report d
  = (Rejected (DomException "DataError"), d)
  ∧ (∀ u, fst (saveReportToDb eng iso report d) ≠ Resolved u)
  ∧ snd (saveReportToDb eng iso report d) = d.
Proof.
  intros Hk. destruct d as [us rs].
  unfold saveReportToDb, performTransaction, put.
  rewrite stamped_key, Hk. cbn [users DbService.reports].
  split; [done|]. by destruct eng.
Qed.

Lemma saveReportToDb_without_id_witness :
  saveReportToDb Healthy "2024-03-01T00:00:00.000Z"
    {[ "userId" := VStr "u1"; "timestamp" := VNum 500 ]} Sample.sample_db
  = (Rejected (DomException "DataError"), Sample.sample_db).
Proof.
  apply (saveReportToDb_without_id Healthy "2024-03-01T00:00:00.000Z"
           {[ "userId" := VStr "u1"; "timestamp" := VNum 500 ]}
           Sample.sample_db).
  reflexivity.
Defined.

(** X8. The later of two saves under one id wins: with a healthy engine,
    saving a report and then saving another report with the same id
    leaves the database that the second save alone would have left. *)
Theorem saveReportToDb_twice (iso1 iso2 : string) (r1 r2 : obj) (k : key)
    (d : DB) :
  key_at STORE_REPORTS_keyPath r1 = Some k →
  key_at STORE_REPORTS_keyPath r2 = Some k →
  snd (saveReportToDb Healthy iso2 r2 (snd (saveReportToDb Healthy iso1 r1 d)))
  = snd (saveReportToDb Healthy iso2 r2 d).
Proof.
  intros H1 H2.
  rewrite (saveReportToDb_healthy iso1 r1 k d H1). cbn [snd].
  rewrite !(saveReportToDb_healthy iso2 r2 k _ H2).
  cbn [snd users DbService.reports]. f_equal.
  apply place_place. by rewrite stamped_key.
Qed.

Lemma saveReportToDb_twice_witness :
  snd (saveReportToDb Healthy "2024-03-02T00:00:00.000Z" Sample.report2
         (snd (saveReportToDb Healthy "2024-03-01T00:00:00.000Z"
                 (<["id" := VStr "r2"]> Sample.report1) Sample.sample_db)))
  = snd (saveReportToDb Healthy "2024-03-02T00:00:00.000Z" Sample.report2
           Sample.sample_db).
Proof.
  apply (saveReportToDb_twice "2024-03-01T00:00:00.000Z"
           "2024-03-02T00:00:00.000Z" (<["id" := VStr "r2"]> Sample.report1)
           Sample.report2 (KStr "r2") Sample.sample_db); reflexivity.
Defined.

(** ** Listings *)

(** X9. [fetchAllReportsForDoctor] lists the whole reports store: with a
    healthy engine it resolves to a permutation of the stored reports,
    and when their timestamps are numbers the listing is newest first,
    reports of one timestamp in the order of the store. *)
Theorem fetchAllReportsForDoctor_listing (d : DB) :
  ∃ l, fetchAllReportsForDoctor Healthy d = Resolved l
     ∧ l ≡ₚ DbService.reports d
     ∧ (Forall has_timestamp (DbService.reports d) →
        StronglySorted not_older l
        ∧ ∀ t, filter (λ r, timestamp r = Some t) l
               = filter (λ r, timestamp r = Some t) (DbService.reports d)).
Proof.
  eexists. split; [reflexivity|]. unfold getAll.
  split; [apply array_sort_perm|]. intros Hts.
  split; [by apply array_sort_sorted | intros t; apply array_sort_stable].
Qed.

Lemma fetchAllReportsForDoctor_listing_witness :
  ∃ l, fetchAllReportsForDoctor Healthy Sample.sample_db = Resolved l
     ∧ l ≡ₚ DbService.reports Sample.sample_db
     ∧ StronglySorted not_older l.
Proof.
  destruct (fetchAllReportsForDoctor_listing Sample.sample_db)
    as (l & Hrun & Hperm & Hsorted).
  exists l. split; [done|]. split; [done|].
  apply Hsorted. repeat constructor; by eexists.
Defined.

Section Doctors.

Lemma elem_of_place_fresh (path : string) (k : key) (r x : obj) (s : store) :
  Idb.get path k s = None →
  x ∈ place path k r s ↔ x = r ∨ x ∈ s.
Proof.
  intros Hfresh. split; [apply elem_of_place|].
  intros [->|Hx]; [apply place_has|].
  apply place_keeps; [done|]. by apply (get_None path k s).
Qed.

Lemma role_value_doctor (role : UserRole) :
  role_value role = VStr "DOCTOR" ↔ role = DOCTOR.
Proof. destruct role; split; (done || discriminate). Qed.

Lemma fetchAvailableDoctors_healthy (d : DB) :
  fetchAvailableDoctors Healthy d
  = Resolved (doctor_profile
                <$> filter (λ u, field u "role" = VStr "DOCTOR") (users d)).
Proof.
  unfold fetchAvailableDoctors, read_request. cbn [role_value to_key].
  by rewrite index_getAll_str.
Qed.

End Doctors.

(** X10. Who is listed as a doctor. With a healthy engine
    [fetchAvailableDoctors] resolves to the profiles of exactly the stored
    users whose role is DOCTOR. After a registration that went through
    (unused email, fresh id) the listing has the profiles it had and, when
    the role of the registration is DOCTOR, the profile of the new user
    with the generated id as [uid]; the registration of a patient or a
    guest adds nothing to it. *)
Theorem registered_doctor_is_listed (now : N) (iso rnd email pass name : string)
    (role : UserRole) (specialization : option string) (d : DB) :
  let u := newUser now iso rnd email pass name role specialization in
  let id := "user_" +:+ pretty now +:+ rnd in
  let d' := snd (registerUser Healthy now iso rnd email pass name role
                   specialization d) in
  (∀ x, x ∈ users d → field x "email" ≠ VStr email) →
  Idb.get STORE_USERS_keyPath (KStr id) (users d) = None →
  ∃ l l', fetchAvailableDoctors Healthy d = Resolved l
        ∧ fetchAvailableDoctors Healthy d' = Resolved l'
        ∧ (∀ p, p ∈ l ↔ ∃ x, x ∈ users d ∧ field x "role" = VStr "DOCTOR"
                           ∧ p = doctor_profile x)
        ∧ (∀ p, p ∈ l' ↔ p ∈ l ∨ (role = DOCTOR ∧ p = doctor_profile u))
        ∧ doctor_profile u
          = list_to_map
              [ ("uid", VStr id); ("name", VStr name); ("email", VStr email);
                ("role", role_value role);
                ("specialization", VStr (or_default specialization "")) ].
Proof.
  intros u id d' Hemail Hfresh. subst u id.
  destruct (add_newUser now iso rnd email pass name role specialization
              (users d) Hemail Hfresh) as (Hcheck & Hadd & _).
  cbn zeta in Hcheck, Hadd.
  assert (users d' = place STORE_USERS_keyPath
                       (KStr ("user_" +:+ pretty now +:+ rnd))
                       (newUser now iso rnd email pass name role specialization)
                       (users d)) as Hd'.
  { subst d'. unfold registerUser, read_request, performTransaction.
    by rewrite Hcheck, Hadd. }
  eexists _, _. split; [apply fetchAvailableDoctors_healthy|].
  split; [apply fetchAvailableDoctors_healthy|].
  assert (∀ (s : store) p,
            p ∈ doctor_profile <$> filter (λ u, field u "role" = VStr "DOCTOR") s
            ↔ ∃ x, x ∈ s ∧ field x "role" = VStr "DOCTOR" ∧ p = doctor_profile x)
    as Hmem.
  { intros s p. rewrite list_elem_of_fmap. split.
    - intros (x & -> & [Hrole Hx]%list_elem_of_filter). by exists x.
    - intros (x & Hx & Hrole & ->). exists x. split; [done|].
      by apply list_elem_of_filter. }
  split; [apply Hmem|]. split; [|reflexivity].
  intros p. rewrite !Hmem, Hd'. split.
  - intros (x & Hx & Hrole & ->).
    apply (elem_of_place_fresh _ _ _ _ _ Hfresh) in Hx as [->|Hx].
    + right. split; [|done]. by apply role_value_doctor.
    + left. by exists x.
  - intros [(x & Hx & Hrole & ->)|[-> ->]].
    + exists x. split; [|done]. apply elem_of_place_fresh; auto.
    + eexists. split; [apply place_has|]. done.
Qed.

Lemma registered_doctor_is_listed_witness :
  let u := newUser 1700000000000 "2023-11-14T22:13:20.000Z" "k3j9x0q2a"
             "new@x.com" "pw3" "Carol" DOCTOR (Some "Surgery") in
  let d' := snd (registerUser Healthy 1700000000000 "2023-11-14T22:13:20.000Z"
                   "k3j9x0q2a" "new@x.com" "pw3" "Carol" DOCTOR
                   (Some "Surgery") Sample.sample_db) in
  ∃ l', fetchAvailableDoctors Healthy d' = Resolved l'
      ∧ doctor_profile u ∈ l'
      ∧ doctor_profile Sample.bob ∈ l'.
Proof.
  intros u d'.
  destruct (registered_doctor_is_listed 1700000000000
              "2023-11-14T22:13:20.000Z" "k3j9x0q2a" "new@x.com" "pw3" "Carol"
              DOCTOR (Some "Surgery") Sample.sample_db)
    as (l & l' & Hl & Hl' & Hmem & Hmem' & _).
  - intros x Hx. cbn in Hx. rewrite !elem_of_cons, elem_of_nil in Hx.
    destruct Hx as [->|[->|[]]]; discriminate.
  - reflexivity.
  - exists l'. split; [exact Hl'|]. split.
    + apply Hmem'. by right.
    + apply Hmem'. left. apply Hmem. exists Sample.bob.
      split; [|done]. cbn. rewrite !elem_of_cons. auto.
Defined.

(** ** Profile updates *)

Section Profiles.

Lemma field_spread_keep (a b : obj) (f : string) :
  b !! f = None → field (spread a b) f = field a f.
Proof. intros Hf. unfold field. by rewrite spread_absent. Qed.

(** The merge of a user with an update that does not take the email of
    another user clashes with no record of the unique index. *)
Lemma users_no_clash (uid : string) (updates data : obj) (us : store) :
  unique_index STORE_USERS_keyPath "email" us →
  Idb.get STORE_USERS_keyPath (KStr uid) us = Some data →
  email_available uid updates us →
  existsb (λ u, clashes STORE_USERS_keyPath u (KStr uid)
                  (spread data updates) us) STORE_USERS_unique = false.
Proof.
  intros Huniq Hget Havail.
  pose proof (get_Some _ _ _ _ Hget) as [Hin Hkey].
  cbn [existsb STORE_USERS_unique]. rewrite orb_false_r.
  apply clashes_false. intros x Hx Hsome Heq.
  unfold key_at, field in Hsome, Heq.
  destruct (updates !! "email") as [v|] eqn:Hu.
  - rewrite (spread_present _ _ _ _ Hu) in Hsome, Heq. by apply (Havail v x).
  - rewrite (spread_absent _ _ _ Hu) in Hsome, Heq.
    rewrite <- Hkey. apply Huniq; [done|done| |done].
    unfold key_at, field. by rewrite Heq.
Qed.

End Profiles.

(** X11. A profile update shows at the next login. For a stored user, an
    update that mentions neither [_id], [email] nor [password] is stored
    by [updateUserInDb] (healthy engine), and [loginUser] with the user's
    email and password then resolves to a profile with the same [uid] in
    which every profile property is that of the merge: the update's value
    where the update has one, the stored value otherwise. *)
Theorem profile_update_then_login (uid email pass : string) (updates u : obj)
    (d : DB) :
  users_ok (users d) →
  Idb.get STORE_USERS_keyPath (KStr uid) (users d) = Some u →
  field u "email" = VStr email → field u "password" = VStr pass →
  updates !! "_id" = None → updates !! "email" = None →
  updates !! "password" = None →
  ∃ d' r, updateUserInDb Healthy uid updates d = (Resolved tt, d')
        ∧ loginUser Healthy email pass d' = Resolved r
        ∧ logged_user r !! "uid" = Some (VStr uid)
        ∧ ∀ f, f ∈ profile_fields →
               logged_user r !! f = Some (field (spread u updates) f).
Proof.
  intros [Hasc Huniq] Hget Hemail Hpass Hid Hmail Hpw.
  pose proof (get_Some _ _ _ _ Hget) as [Hin Hkey].
  assert (keeps_key STORE_USERS_keyPath uid updates) as Hkeep
    by (intros v Hv; unfold STORE_USERS_keyPath in Hv; congruence).
  assert (email_available uid updates (users d)) as Havail
    by (intros v x Hv; congruence).
  pose proof (users_no_clash uid updates u (users d) Huniq Hget Havail)
    as Hclash.
  destruct (merge_update_stored STORE_USERS_keyPath STORE_USERS_unique
              "User not found" uid updates u (users d) Hget Hkeep Hclash)
    as [Hrun _].
  pose proof (keeps_key_spread _ _ _ _ Hkey Hkeep) as Hk'.
  set (merged := spread u updates) in *.
  set (us' := place STORE_USERS_keyPath (KStr uid) merged (users d)) in *.
  assert (users_ok us') as Hok'.
  { split; [by apply place_ascending|]. apply place_unique; [done| |done].
    cbn [existsb STORE_USERS_unique] in Hclash.
    by rewrite orb_false_r in Hclash. }
  assert (field merged "email" = VStr email) as Hemail'
    by (subst merged; by rewrite field_spread_keep).
  assert (field merged "password" = VStr pass) as Hpass'
    by (subst merged; by rewrite field_spread_keep).
  assert (field merged "_id" = VStr uid) as Hid'
    by (by apply key_at_str).
  pose proof (index_getAll_unique us' merged email Hok'
                (place_has _ _ _ _) Hemail') as Hone.
  eexists _, _. split; [unfold updateUserInDb; by rewrite Hrun|].
  cbn [users]. split.
  - unfold loginUser, read_request, index_get. cbn [users]. fold us'.
    rewrite Hone. cbn [head]. rewrite Hpass'.
    rewrite bool_decide_eq_false_2 by (by intros []). reflexivity.
  - cbn [logged_user]. split; [by rewrite <- Hid'|].
    intros f Hf. unfold profile_fields in Hf.
    repeat (apply elem_of_cons in Hf as [->|Hf]; [reflexivity|]).
    by apply elem_of_nil in Hf.
Qed.

Lemma profile_update_then_login_witness :
  ∃ d' r, updateUserInDb Healthy "u1" {[ "phone" := VStr "555" ]}
            Sample.sample_db = (Resolved tt, d')
        ∧ loginUser Healthy "a@x.com" "pw1" d' = Resolved r
        ∧ logged_user r !! "phone" = Some (VStr "555")
        ∧ logged_user r !! "name" = Some (VStr "Alice").
Proof.
  destruct (profile_update_then_login "u1" "a@x.com" "pw1"
              {[ "phone" := VStr "555" ]} Sample.alice Sample.sample_db)
    as (d' & r & Hrun & Hlogin & _ & Hfields); try reflexivity.
  - exact sample_users_ok.
  - exists d', r. split; [done|]. split; [done|]. split.
    + rewrite (Hfields "phone"); [reflexivity|].
      unfold profile_fields. rewrite !elem_of_cons. tauto.
    + rewrite (Hfields "name"); [reflexivity|].
      unfold profile_fields. rewrite !elem_of_cons. tauto.
Defined.

(** ** The optimistic update and the store agree *)

Section Agreement.

Variables (id : string) (status : value) (notes : option string).

Let rw : obj → obj := rewrite_status id status notes.

Lemma rewrite_status_field (r : obj) (f : string) :
  f ≠ "status" → f ≠ "doctorNotes" → field (rw r) f = field r f.
Proof.
  intros Hs Hn. destruct (rewrite_status_rewritten id status notes r) as [Hyes Hno].
  unfold field. destruct (decide (field r "id" = VStr id)) as [Hid|Hid].
  - destruct (Hyes Hid) as (_ & _ & Hrest). unfold rw. by rewrite Hrest.
  - unfold rw. by rewrite (Hno Hid).
Qed.

Lemma rewrite_status_other (r : obj) :
  key_at STORE_REPORTS_keyPath r ≠ Some (KStr id) → rw r = r.
Proof.
  intros Hk. unfold rw, rewrite_status.
  rewrite bool_decide_eq_false_2; [done|]. intros Hid. by apply key_at_str in Hid.
Qed.

Lemma rewrite_status_same (r : obj) :
  key_at STORE_REPORTS_keyPath r = Some (KStr id) →
  rw r = spread r (status_update status notes).
Proof.
  intros Hk. unfold rw, rewrite_status.
  rewrite bool_decide_eq_true_2; [done|]. by apply key_at_str.
Qed.

Lemma fmap_fixed (l : list obj) :
  (∀ x, x ∈ l → rw x = x) → rw <$> l = l.
Proof.
  induction l as [|x l IH]; intros Hl; [done|]. cbn.
  rewrite Hl by apply list_elem_of_here.
  rewrite IH; [done|]. intros y Hy. by apply Hl, list_elem_of_further.
Qed.

(** In an ascending store the merge of the status update is written in
    the place of the record it was merged with: the store after the write
    is the store before it, rewritten record by record. *)
Lemma place_rewrite (data : obj) (s : store) :
  ascending STORE_REPORTS_keyPath s →
  Idb.get STORE_REPORTS_keyPath (KStr id) s = Some data →
  place STORE_REPORTS_keyPath (KStr id)
    (spread data (status_update status notes)) s
  = rw <$> s.
Proof.
  intros [Hvalid Hsorted]. induction Hsorted as [|x s Hs IH Hx]; [done|].
  apply Forall_cons in Hvalid as [[kx Hkx] Hvalid].
  rewrite get_cons. cbn [place fmap list_fmap]. rewrite Hkx.
  case_bool_decide as Hk.
  - intros [= <-]. injection Hk as ->. rewrite key_compare_refl.
    rewrite (rewrite_status_same x Hkx). f_equal. symmetry.
    apply fmap_fixed. intros y Hy. apply rewrite_status_other.
    rewrite Forall_forall in Hx.
    destruct (Hx y Hy) as (k1 & k2 & Hk1 & Hk2 & Hlt).
    rewrite Hk2. intros [= ->]. rewrite Hkx in Hk1. injection Hk1 as <-.
    by rewrite key_compare_refl in Hlt.
  - intros Hget. destruct (key_compare (KStr id) kx) eqn:Hc.
    + apply key_compare_Eq in Hc as <-. by destruct Hk.
    + exfalso. apply get_Some in Hget as [Hin Hkd].
      rewrite Forall_forall in Hx.
      destruct (Hx data Hin) as (k1 & k2 & Hk1 & Hk2 & Hlt).
      rewrite Hkx in Hk1. rewrite Hkd in Hk2. simplify_eq.
      pose proof (key_compare_trans _ _ _ Hc Hlt) as Hrefl.
      by rewrite key_compare_refl in Hrefl.
    + rewrite (IH Hvalid Hget). f_equal. symmetry.
      apply rewrite_status_other. by rewrite Hkx.
Qed.

Lemma filter_fmap_rewrite (f : string) (k : key) (l : list obj) :
  f ≠ "status" → f ≠ "doctorNotes" →
  filter (λ r, key_at f r = Some k) (rw <$> l)
  = rw <$> filter (λ r, key_at f r = Some k) l.
Proof.
  intros Hs Hn. induction l as [|x l IH]; [done|].
  assert (key_at f (rw x) = key_at f x) as Hkx
    by (unfold key_at; by rewrite rewrite_status_field).
  cbn [fmap list_fmap]. rewrite !filter_cons.
  destruct (decide (key_at f (rw x) = Some k)) as [H1|H1],
           (decide (key_at f x = Some k)) as [H2|H2];
    cbn [fmap list_fmap]; rewrite ?IH; try done; rewrite Hkx in H1; done.
Qed.

Lemma by_timestamp_desc_rewrite (a b : obj) :
  by_timestamp_desc (rw a) (rw b) = by_timestamp_desc a b.
Proof. unfold by_timestamp_desc. by rewrite !rewrite_status_field. Qed.

Lemma sort_insert_rewrite (x : obj) (l : list obj) :
  sort_insert by_timestamp_desc (rw x) (rw <$> l)
  = rw <$> sort_insert by_timestamp_desc x l.
Proof.
  induction l as [|y l IH]; [done|]. cbn.
  rewrite by_timestamp_desc_rewrite.
  destruct (by_timestamp_desc x y <=? 0)%Z; cbn; [done|]. by rewrite IH.
Qed.

Lemma array_sort_rewrite (l : list obj) :
  array_sort by_timestamp_desc (rw <$> l)
  = rw <$> array_sort by_timestamp_desc l.
Proof.
  induction l as [|x l IH]; [done|]. cbn [fmap list_fmap array_sort].
  change (list_fmap obj obj rw l) with (rw <$> l).
  by rewrite IH, sort_insert_rewrite.
Qed.

(** The listing by an index of the store after [updateReportInDb] with
    the status update (healthy engine) is the listing before, rewritten. *)
Lemma listing_after_status_update (f : string) (k : string) (d : DB) :
  f ≠ "status" → f ≠ "doctorNotes" →
  reports_ok (DbService.reports d) →
  array_sort by_timestamp_desc
    (index_getAll f (KStr k)
       (DbService.reports
          (snd (updateReportInDb Healthy id (status_update status notes) d))))
  = rw <$> array_sort by_timestamp_desc
             (index_getAll f (KStr k) (DbService.reports d)).
Proof.
  intros Hs Hn Hok. unfold updateReportInDb.
  destruct (Idb.get STORE_REPORTS_keyPath (KStr id) (DbService.reports d))
    as [data|] eqn:Hget.
  - destruct (merge_update_stored STORE_REPORTS_keyPath STORE_REPORTS_unique
                "Report not found" id (status_update status notes) data
                (DbService.reports d) Hget
                (status_update_keeps_key id status notes) eq_refl) as [-> _].
    cbn [snd DbService.reports]. rewrite (place_rewrite data _ Hok Hget).
    unfold index_getAll. by rewrite filter_fmap_rewrite, array_sort_rewrite.
  - unfold merge_update. rewrite Hget. cbn [snd DbService.reports].
    symmetry. apply fmap_fixed. intros x Hx.
    rewrite array_sort_perm in Hx.
    apply list_elem_of_filter in Hx as [_ Hx].
    apply rewrite_status_other.
    by apply (get_None STORE_REPORTS_keyPath (KStr id) (DbService.reports d)).
Qed.

End Agreement.

(** X12. The optimistic update and the store agree when the write goes
    through. If the reports held in memory are the listing that the store
    gives a doctor (or a patient), then after [updateReportStatus] with a
    healthy engine they are again exactly the listing that the store
    gives: a fresh fetch returns what is held, in the same order, whether
    or not the id of the call is in the store. *)
Theorem updateReportStatus_agrees_with_store (id : string) (status : value)
    (notes : option string) (st : AppState) (d : DB) (tr : list event)
    (who : string) :
  let w' := snd (run (updateReportStatus id status notes) Healthy
                   {| app := st; db := d; trace := tr |}) in
  reports_ok (DbService.reports d) →
  (fetchReportsForSpecificDoctor Healthy who d = Resolved (reports st) →
   fetchReportsForSpecificDoctor Healthy who (db w')
   = Resolved (reports (app w')))
  ∧ (fetchPatientReports Healthy who d = Resolved (reports st) →
     fetchPatientReports Healthy who (db w') = Resolved (reports (app w'))).
Proof.
  intros w' Hok. subst w'. rewrite run_updateReportStatus.
  assert (∀ o d', app (snd (after_write id status notes st tr o d'))
                  = set_reports (rewrite_status id status notes <$> reports st) st
                  ∧ db (snd (after_write id status notes st tr o d')) = d')
    as Hafter by (by intros [] d').
  destruct (Hafter (fst (updateReportInDb Healthy id (status_update status notes) d))
              (snd (updateReportInDb Healthy id (status_update status notes) d)))
    as [-> ->].
  cbn [reports set_reports].
  unfold fetchReportsForSpecificDoctor, fetchPatientReports, read_request.
  split; intros [= <-]; f_equal; by apply listing_after_status_update.
Qed.

Lemma updateReportStatus_agrees_with_store_witness :
  let st := Sample.session DOCTOR (Some "u2")
              [Sample.report0; Sample.report2; Sample.report1] in
  let w' := snd (run (updateReportStatus "r2" (VStr "reviewed") (Some "ok"))
                   Healthy {| app := st; db := Sample.sample_db; trace := [] |}) in
  fetchReportsForSpecificDoctor Healthy "u2" (db w')
  = Resolved (reports (app w')).
Proof.
  intros st w'.
  apply (proj1 (updateReportStatus_agrees_with_store "r2" (VStr "reviewed")
                  (Some "ok") st Sample.sample_db [] "u2"
                  ltac:(split; repeat constructor;
                        first [by eexists
                              | eexists _, _; repeat split; reflexivity]))).
  reflexivity.
Defined.

(** ** More on the actions of the store *)

Section MoreActions.

(** Running one action after another. *)
Lemma run_bind {A B : Type} (t : task A) (f : A → task B) (eng : engine)
    (w : world) :
  run (t ≫= f) eng w
  = match run t eng w with
    | (Returned a, w') => run (f a) eng w'
    | (Thrown e, w') => (Thrown e, w')
    | (Hangs, w') => (Hangs, w')
    end.
Proof.
  unfold mbind, task_bind. revert w.
  induction t as [a|e|k IH|g k IH|m e k IH|R c k IHk h IHh]; intros w;
    cbn [bind run]; try done.
  destruct (perform c eng (db w)) as [[r|e|] d']; done.
Qed.

Lemma run_loadDoctors (eng : engine) (st : AppState) (d : DB)
    (tr : list event) :
  run loadDoctors eng {| app := st; db := d; trace := tr |}
  = match fetchAvailableDoctors eng d with
    | Resolved l =>
        (Returned tt,
         {| app := set_availableDoctors l st; db := d;
            trace := tr ++ [Called FetchAvailableDoctors;
                            StateSet (set_availableDoctors l st)] |})
    | Rejected e =>
        (Returned tt,
         {| app := st; db := d;
            trace := tr ++ [Called FetchAvailableDoctors;
                            Logged "Failed to load doctors" e] |})
    | Pending =>
        (Hangs, {| app := st; db := d;
                   trace := tr ++ [Called FetchAvailableDoctors] |})
    end.
Proof.
  unfold loadDoctors. cbn.
  destruct (fetchAvailableDoctors eng d); cbn; by rewrite <- ?(assoc_L (++)).
Qed.

End MoreActions.

(** X13. [loadDoctors] and the cached list of doctors. When the fetch
    resolves, the cache is replaced by the fetched profiles and nothing
    else of the state changes; when it is rejected, the action returns
    normally with the whole state as it was and the failure logged; when
    it never settles (the database cannot be opened), the action stays
    suspended with the state as it was. The database is never written. *)
Theorem loadDoctors_cache (eng : engine) (st : AppState) (d : DB)
    (tr : list event) :
  let end_ := run loadDoctors eng {| app := st; db := d; trace := tr |} in
  (∀ l, fetchAvailableDoctors eng d = Resolved l →
        fst end_ = Returned tt
        ∧ app (snd end_) = set_availableDoctors l st)
  ∧ (∀ e, fetchAvailableDoctors eng d = Rejected e →
          fst end_ = Returned tt
          ∧ app (snd end_) = st
          ∧ trace (snd end_)
            = (tr ++ [Called FetchAvailableDoctors;
                      Logged "Failed to load doctors" e])%list)
  ∧ (fetchAvailableDoctors eng d = Pending →
     fst end_ = Hangs ∧ app (snd end_) = st)
  ∧ (eng = OpenFails → fst end_ = Hangs)
  ∧ db (snd end_) = d.
Proof.
  intros end_. subst end_. rewrite run_loadDoctors.
  split; [|split; [|split; [|split]]].
  - by intros l ->.
  - by intros e ->.
  - by intros ->.
  - by intros ->.
  - by destruct (fetchAvailableDoctors eng d).
Qed.

Lemma loadDoctors_cache_witness :
  let st := Sample.session PATIENT (Some "u1") [] in
  let end_ok := run loadDoctors Healthy
                  {| app := st; db := Sample.sample_db; trace := [] |} in
  let end_ko := run loadDoctors (ReadFails "UnknownError")
                  {| app := set_availableDoctors [doctor_profile Sample.bob] st;
                     db := Sample.sample_db; trace := [] |} in
  availableDoctors (app (snd end_ok)) = [doctor_profile Sample.bob]
  ∧ availableDoctors (app (snd end_ko)) = [doctor_profile Sample.bob]
  ∧ fst end_ko = Returned tt.
Proof.
  intros st end_ok end_ko.
  destruct (loadDoctors_cache Healthy st Sample.sample_db []) as (Hok & _).
  destruct (loadDoctors_cache (ReadFails "UnknownError")
              (set_availableDoctors [doctor_profile Sample.bob] st)
              Sample.sample_db []) as (_ & Hko & _).
  destruct (Hok [doctor_profile Sample.bob] eq_refl) as [_ Happ].
  destruct (Hko (DomException "UnknownError") eq_refl) as (Hret & Happ' & _).
  subst end_ok end_ko. rewrite Happ, Happ'. by repeat split.
Defined.

(** X14. A session with an id whose role is neither PATIENT nor DOCTOR
    (GUEST): [loadReports] calls no service, and still replaces the
    reports held by the empty list, setting and clearing the loading flag
    on the way. *)
Theorem loadReports_guest_with_identity (eng : engine) (st : AppState)
    (d : DB) (tr : list event) (uid : string) :
  currentUserId st = Some uid → uid ≠ "" → currentUserRole st = GUEST →
  let loading := set_isLoading true st in
  let emptied := set_reports [] loading in
  run loadReports eng {| app := st; db := d; trace := tr |}
  = (Returned tt,
     {| app := set_isLoading false emptied; db := d;
        trace := tr ++ [StateSet loading; StateSet emptied;
                        StateSet (set_isLoading false emptied)] |}).
Proof.
  intros Hid Hne Hrole. unfold loadReports. cbn. rewrite Hid, Hrole. cbn.
  rewrite (bool_decide_eq_false_2 (uid = "")) by done.
  rewrite (bool_decide_eq_false_2 (GUEST = PATIENT)) by done.
  rewrite (bool_decide_eq_false_2 (GUEST = DOCTOR)) by done. cbn.
  by rewrite <- !(assoc_L (++)).
Qed.

Lemma loadReports_guest_with_identity_witness :
  reports (app (snd (run loadReports Healthy
                       {| app := Sample.session GUEST (Some "u1")
                                   [Sample.report1];
                          db := Sample.sample_db; trace := [] |}))) = [].
Proof.
  rewrite (loadReports_guest_with_identity Healthy
             (Sample.session GUEST (Some "u1") [Sample.report1])
             Sample.sample_db [] "u1" eq_refl ltac:(discriminate) eq_refl).
  reflexivity.
Defined.

(** X15. What a session holds after a load: with a healthy engine and an
    identity, [loadReports] returns with the loading flag cleared, and
    every report then held is a report of the store that belongs to the
    session: its [userId] is the id of a PATIENT session, its
    [targetDoctorId] the id of a DOCTOR session. Reports that were held
    before and are not in the store are gone. *)
Theorem loadReports_holds_own_reports (st : AppState) (d : DB)
    (tr : list event) (uid : string) :
  let end_ := run loadReports Healthy {| app := st; db := d; trace := tr |} in
  currentUserId st = Some uid → uid ≠ "" →
  (currentUserRole st = PATIENT →
   fst end_ = Returned tt ∧ isLoading (app (snd end_)) = false
   ∧ ∀ r, r ∈ reports (app (snd end_)) ↔
          r ∈ DbService.reports d ∧ field r "userId" = VStr uid)
  ∧ (currentUserRole st = DOCTOR →
     fst end_ = Returned tt ∧ isLoading (app (snd end_)) = false
     ∧ ∀ r, r ∈ reports (app (snd end_)) ↔
            r ∈ DbService.reports d ∧ field r "targetDoctorId" = VStr uid).
Proof.
  intros end_ Hid Hne. subst end_. split; intros Hrole.
  - rewrite (run_loadReports_patient Healthy st d tr uid Hid Hne Hrole).
    cbn. split; [done|]. split; [done|]. intros r.
    rewrite array_sort_perm, index_getAll_str, list_elem_of_filter. tauto.
  - rewrite (run_loadReports_doctor Healthy st d tr uid Hid Hne Hrole).
    cbn. split; [done|]. split; [done|]. intros r.
    rewrite array_sort_perm, index_getAll_str, list_elem_of_filter. tauto.
Qed.

Lemma loadReports_holds_own_reports_witness :
  let end_ := run loadReports Healthy
                {| app := Sample.session DOCTOR (Some "u7") [Sample.report1];
                   db := Sample.sample_db; trace := [] |} in
  Sample.report3 ∈ reports (app (snd end_))
  ∧ (Sample.report1 ∉ reports (app (snd end_))).
Proof.
  intros end_.
  destruct (proj2 (loadReports_holds_own_reports
                     (Sample.session DOCTOR (Some "u7") [Sample.report1])
                     Sample.sample_db [] "u7" eq_refl ltac:(discriminate))
              eq_refl) as (_ & _ & Hmem).
  split.
  - apply Hmem. split; [|reflexivity]. cbn. rewrite !elem_of_cons. auto.
  - intros [_ Hrouted]%Hmem. discriminate.
Defined.

(** X16. [setAuth] leaves the reports of the previous session in memory,
    and a failed load does not remove them: after [setAuth] to a patient
    or doctor with a non-empty id followed by a [loadReports] whose fetch
    is rejected, the session is the new one and the reports held are
    still those held before [setAuth]. *)
Theorem setAuth_keeps_reports (role : UserRole) (name uid : string)
    (profile : option obj) (n : string) (st : AppState) (d : DB)
    (tr : list event) :
  let end_ := run (setAuth role name (Some uid) profile;; loadReports)
                (ReadFails n) {| app := st; db := d; trace := tr |} in
  uid ≠ "" → role ≠ GUEST →
  fst end_ = Returned tt
  ∧ currentUserId (app (snd end_)) = Some uid
  ∧ currentUserRole (app (snd end_)) = role
  ∧ reports (app (snd end_)) = reports st
  ∧ Logged "Failed to load reports" (DomException n) ∈ trace (snd end_).
Proof.
  intros end_ Hne Hrole. subst end_. rewrite run_bind. cbn [setAuth set run app db trace].
  set (st1 := set_auth role name (Some uid) profile st).
  destruct role; [done| |].
  - rewrite (run_loadReports_patient (ReadFails n) st1 d _ uid eq_refl Hne eq_refl).
    cbn. do 4 (split; [done|]). rewrite !elem_of_app, !elem_of_cons. auto.
  - rewrite (run_loadReports_doctor (ReadFails n) st1 d _ uid eq_refl Hne eq_refl).
    cbn. do 4 (split; [done|]). rewrite !elem_of_app, !elem_of_cons. auto.
Qed.

Lemma setAuth_keeps_reports_witness :
  let st := Sample.session PATIENT (Some "u1") [Sample.report1] in
  let end_ := run (setAuth DOCTOR "Dr Eve" (Some "u9") None;; loadReports)
                (ReadFails "UnknownError")
                {| app := st; db := Sample.sample_db; trace := [] |} in
  currentUserId (app (snd end_)) = Some "u9"
  ∧ reports (app (snd end_)) = [Sample.report1].
Proof.
  intros st end_.
  destruct (setAuth_keeps_reports DOCTOR "Dr Eve" "u9" None "UnknownError" st
              Sample.sample_db [] ltac:(discriminate) ltac:(discriminate))
    as (_ & Hid & _ & Hreports & _).
  by split.
Defined.

(** X17. A report added with [addReportLocal] and never saved: with a
    healthy engine, [updateReportStatus] on its id rewrites the copy in
    memory, finds nothing to update in the store, logs the rejection and
    returns normally. Memory then shows the new status for a report that
    the store does not have, and the database is as it was. *)
Theorem updateReportStatus_unsaved_report (report : obj) (id : string)
    (status : value) (notes : option string) (st : AppState) (d : DB)
    (tr : list event) :
  let end_ := run (addReportLocal report;; updateReportStatus id status notes)
                Healthy {| app := st; db := d; trace := tr |} in
  field report "id" = VStr id →
  Idb.get STORE_REPORTS_keyPath (KStr id) (DbService.reports d) = None →
  fst end_ = Returned tt
  ∧ db (snd end_) = d
  ∧ reports (app (snd end_))
    = spread report (status_update status notes)
      :: (rewrite_status id status notes <$> reports st)
  ∧ field (spread report (status_update status notes)) "status" = status
  ∧ Logged "Failed to update report in DB" (JsError "Report not found")
    ∈ trace (snd end_).
Proof.
  intros end_ Hid Hget. subst end_. rewrite run_bind.
  cbn [addReportLocal set run app db trace].
  rewrite run_updateReportStatus.
  assert (updateReportInDb Healthy id (status_update status notes) d
          = (Rejected (JsError "Report not found"), d)) as ->.
  { destruct d as [us rs]. unfold updateReportInDb, merge_update.
    cbn [users DbService.reports] in *. by rewrite Hget. }
  cbn. split; [done|]. split; [done|]. split; [|split].
  - unfold rewrite_status at 1. by rewrite bool_decide_eq_true_2.
  - unfold field, spread, status_update.
    by rewrite (lookup_union_Some_l _ _ _ status) by apply lookup_insert_eq.
  - rewrite !elem_of_app, !elem_of_cons. auto.
Qed.

Lemma updateReportStatus_unsaved_report_witness :
  let report : obj :=
    list_to_map [ ("id", VStr "r9"); ("userId", VStr "u1");
                  ("targetDoctorId", VStr "u2"); ("timestamp", VNum 300);
                  ("status", VStr "pending") ] in
  let end_ := run (addReportLocal report;;
                   updateReportStatus "r9" (VStr "reviewed") None)
                Healthy {| app := Sample.session DOCTOR (Some "u2") [];
                           db := Sample.sample_db; trace := [] |} in
  db (snd end_) = Sample.sample_db
  ∧ reports (app (snd end_))
    = [spread report (status_update (VStr "reviewed") None)].
Proof.
  intros report end_.
  destruct (updateReportStatus_unsaved_report report "r9" (VStr "reviewed")
              None (Sample.session DOCTOR (Some "u2") []) Sample.sample_db []
              eq_refl eq_refl) as (_ & Hdb & Hreports & _).
  by split.
Defined.

(** X18. The invariants of the database (in both stores every record has
    a valid key and the keys ascend strictly; no two users share an
    email) hold of the empty database and are kept by every service that
    writes and by every run of an action of the store, however the engine
    behaves. *)
Theorem database_invariants_kept :
  db_ok empty_db
  ∧ ∀ d, db_ok d →
      (∀ eng now iso rnd email pass name role specialization,
         db_ok (snd (registerUser eng now iso rnd email pass name role
                       specialization d)))
      ∧ (∀ eng uid updates, db_ok (snd (updateUserInDb eng uid updates d)))
      ∧ (∀ eng iso report, db_ok (snd (saveReportToDb eng iso report d)))
      ∧ (∀ eng id updates, db_ok (snd (updateReportInDb eng id updates d)))
      ∧ (∀ A (t : task A) eng st tr,
           db_ok (db (snd (run t eng {| app := st; db := d; trace := tr |})))).
Proof.
  split; [apply empty_db_ok|]. intros d Hd.
  split; [|split; [|split; [|split]]]; intros.
  - by apply registerUser_ok.
  - by apply updateUserInDb_ok.
  - by apply saveReportToDb_ok.
  - by apply updateReportInDb_ok.
  - by apply (run_ok t eng {| app := st; db := d; trace := tr |}).
Qed.

Lemma database_invariants_kept_witness :
  db_ok (snd (saveReportToDb Healthy "2024-03-01T00:00:00.000Z" Sample.report1
                (snd (registerUser Healthy 1700000000000
                        "2023-11-14T22:13:20.000Z" "k3j9x0q2a" "new@x.com"
                        "pw3" "Carol" DOCTOR (Some "Surgery") empty_db)))).
Proof.
  destruct database_invariants_kept as [Hempty Hkept].
  destruct (Hkept empty_db Hempty) as (Hregister & _).
  apply Hkept. apply Hregister.
Defined.

Lemma registerUser_twice_witness :
  let d1 := snd (registerUser Healthy 1000 "1970-01-01T00:00:01.000Z"
                   "k3j9x0q2a" "d@x.com" "pw-d" "D" DOCTOR (Some "Cardiology")
                   empty_db) in
  registerUser Healthy 2000 "1970-01-01T00:00:02.000Z" "b7m1z4w8c" "d@x.com"
    "other" "E" PATIENT None d1
  = (Rejected (JsError "User with this email already exists."), d1)
  ∧ index_getAll "email" (KStr "d@x.com") (users d1)
    = [newUser 1000 "1970-01-01T00:00:01.000Z" "k3j9x0q2a" "d@x.com" "pw-d"
         "D" DOCTOR (Some "Cardiology")].
Proof.
  intros d1.
  apply (registerUser_twice Healthy 1000 2000
           "1970-01-01T00:00:01.000Z" "1970-01-01T00:00:02.000Z"
           "k3j9x0q2a" "b7m1z4w8c" "d@x.com" "pw-d" "other" "D" "E"
           DOCTOR PATIENT (Some "Cardiology") None empty_db d1
           {| registered_user :=
                <["uid" := VStr "user_1000k3j9x0q2a"]>
                  (newUser 1000 "1970-01-01T00:00:01.000Z" "k3j9x0q2a"
                     "d@x.com" "pw-d" "D" DOCTOR (Some "Cardiology"));
              registered_role := VStr "DOCTOR" |}).
  - exact empty_db_ok.
  - reflexivity.
Defined.

(** X20. When the database cannot be opened, [loadReports] of a patient
    or doctor session never completes: the promise of the fetch is never
    settled, so neither the catch nor the finally is reached, and the
    session is left with the loading flag set and its reports as they
    were. *)
Theorem loadReports_open_failure_hangs (st : AppState) (d : DB)
    (tr : list event) (uid : string) :
  let end_ := run loadReports OpenFails {| app := st; db := d; trace := tr |} in
  currentUserId st = Some uid → uid ≠ "" →
  currentUserRole st = PATIENT ∨ currentUserRole st = DOCTOR →
  fst end_ = Hangs
  ∧ isLoading (app (snd end_)) = true
  ∧ reports (app (snd end_)) = reports st
  ∧ db (snd end_) = d.
Proof.
  intros end_ Hid Hne Hrole.
  destruct (run_loadReports_open_fails st d tr uid Hid Hne Hrole) as [tr' Hrun].
  subst end_. by rewrite Hrun.
Qed.

Lemma loadReports_open_failure_hangs_witness :
  let end_ := run loadReports OpenFails
                {| app := Sample.session PATIENT (Some "u1") [];
                   db := Sample.sample_db; trace := [] |} in
  fst end_ = Hangs ∧ isLoading (app (snd end_)) = true.
Proof.
  intros end_.
  destruct (loadReports_open_failure_hangs
              (Sample.session PATIENT (Some "u1") []) Sample.sample_db [] "u1"
              eq_refl ltac:(discriminate) (or_introl eq_refl))
    as (Hhangs & Hloading & _).
  by split.
Defined.

(** ** A saved report in the listings *)

Section SavedReport.

(** In an ascending store a key has at most one record. *)
Lemma ascending_key_unique (path : string) (s : store) (x y : obj) :
  ascending path s → x ∈ s → y ∈ s → key_at path x = key_at path y → x = y.
Proof.
  intros [Hvalid Hsorted]. induction Hsorted as [|a s Hs IH Ha]; intros Hx Hy Hk.
  - by apply elem_of_nil in Hx.
  - apply Forall_cons in Hvalid as [_ Hvalid].
    assert (∀ z, z ∈ s → key_at path a ≠ key_at path z) as Hfresh.
    { intros z Hz Heq. rewrite Forall_forall in Ha.
      destruct (Ha z Hz) as (ka & kz & Hka & Hkz & Hlt).
      rewrite Hka, Hkz in Heq. injection Heq as ->.
      by rewrite key_compare_refl in Hlt. }
    apply elem_of_cons in Hx as [->|Hx], Hy as [->|Hy]; [done| | |by apply IH].
    + by destruct (Hfresh y Hy).
    + by destruct (Hfresh x Hx).
Qed.

(** What an ascending store holds after a record was placed. *)
Lemma elem_of_place_ascending (path : string) (k : key) (r x : obj)
    (s : store) :
  ascending path s → key_at path r = Some k →
  x ∈ place path k r s ↔ x = r ∨ (x ∈ s ∧ key_at path x ≠ Some k).
Proof.
  intros Hs Hr. split.
  - intros Hx. destruct (decide (x = r)) as [|Hne]; [by left|]. right.
    pose proof (elem_of_place _ _ _ _ _ Hx) as [?|Hin]; [done|].
    split; [done|]. intros Hk. apply Hne.
    apply (ascending_key_unique path (place path k r s));
      [by apply place_ascending | done | apply place_has | congruence].
  - intros [->|[Hx Hk]]; [apply place_has | by apply place_keeps].
Qed.

End SavedReport.

(** X21. A saved report in a doctor's listing. With a healthy engine and
    a report that has a valid id, after [saveReportToDb] the listing of a
    doctor has the saved record (the report with its stamp) exactly when
    the report is routed to that doctor, no other record with that id (an
    older version is gone, also from the listing of the doctor it was
    routed to before), and otherwise the records it had. *)
Theorem saved_report_is_listed (iso : string) (report : obj) (k : key)
    (doctorId : string) (d : DB) :
  let stamped := <["updatedAt" := VStr iso]> report in
  let d' := snd (saveReportToDb Healthy iso report d) in
  reports_ok (DbService.reports d) →
  key_at STORE_REPORTS_keyPath report = Some k →
  ∃ l l', fetchReportsForSpecificDoctor Healthy doctorId d = Resolved l
        ∧ fetchReportsForSpecificDoctor Healthy doctorId d' = Resolved l'
        ∧ ∀ x, x ∈ l' ↔
               (x = stamped ∧ field report "targetDoctorId" = VStr doctorId)
               ∨ (x ∈ l ∧ key_at STORE_REPORTS_keyPath x ≠ Some k).
Proof.
  intros stamped d' Hok Hk. subst d' stamped.
  rewrite (saveReportToDb_healthy iso report k d Hk). cbn [snd].
  eexists _, _. split; [reflexivity|]. split; [reflexivity|].
  cbn [DbService.reports]. intros x.
  rewrite !array_sort_perm, !index_getAll_str, !list_elem_of_filter.
  rewrite (elem_of_place_ascending STORE_REPORTS_keyPath k _ x _ Hok)
    by (rewrite stamped_key; exact Hk).
  assert (field (<["updatedAt" := VStr iso]> report) "targetDoctorId"
          = field report "targetDoctorId") as Hrt
    by (rewrite field_insert_ne; done).
  split.
  - intros [Hd [->|[Hx Hne]]]; [left; by rewrite <- Hrt | by right].
  - intros [[-> Hd]|[[Hd Hx] Hne]]; [split; [by rewrite Hrt|by left]|].
    split; [done|by right].
Qed.

Lemma saved_report_is_listed_witness :
  let report : obj :=
    list_to_map [ ("id", VStr "r1"); ("userId", VStr "u1");
                  ("targetDoctorId", VStr "u7"); ("timestamp", VNum 500) ] in
  let d' := snd (saveReportToDb Healthy "2024-03-01T00:00:00.000Z" report
                   Sample.sample_db) in
  ∃ l', fetchReportsForSpecificDoctor Healthy "u2" d' = Resolved l'
      ∧ (Sample.report1 ∉ l')
      ∧ Sample.report2 ∈ l'.
Proof.
  intros report d'.
  destruct (saved_report_is_listed "2024-03-01T00:00:00.000Z" report
              (KStr "r1") "u2" Sample.sample_db)
    as (l & l' & Hl & Hl' & Hmem).
  - split; repeat constructor;
      first [by eexists | eexists _, _; repeat split; reflexivity].
  - reflexivity.
  - exists l'. split; [exact Hl'|]. injection Hl as <-. split.
    + intros [[Heq _]|[_ Hne]]%Hmem; [|by apply Hne].
      apply (f_equal (λ o : obj, o !! "timestamp")) in Heq.
      vm_compute in Heq. discriminate.
    + apply Hmem. right. split; [|discriminate].
      rewrite array_sort_perm, index_getAll_str, list_elem_of_filter.
      split; [reflexivity|]. cbn. rewrite !elem_of_cons. auto.
Defined.
